(** * puzzle-bot: the piece vectorizer ([src/common/vector.py])

    A shallow embedding of the [Vector] class: the border raster, the
    boundary walk, point merging, side extraction with its validations, the
    spoke-angle corner filter and the piece comparator, followed by the
    properties the specification states about them.

    Conventions of the embedding.
    - Python integers are [Z]; list indices follow Python: a negative index
      counts from the end, an index outside [-len, len) raises [IndexError].
    - Python floats are rationals ([Q]); rounding and NaN are not modelled.
    - Exceptions are values of [exn]; a computation that may raise returns a
      [result].  A loop whose termination is not structural takes fuel and
      returns [None] when the fuel runs out.
    - The helpers of [common.util] and the attributes of [common.sides.Side]
      live outside this file of the repository: they are Section variables
      of the code that calls them. *)

From Stdlib Require Import ZArith QArith Qabs Qround Qminmax Lia Lqa.
From stdpp Require Import base decidable option numbers list.

#[local] Open Scope Z_scope.

(** ** Exceptions and results *)

Inductive exn : Type :=
| IndexError
| ValueError
| ZeroDivisionError
| NoBorderToWalk
| StuckInLoop
| ExpectedFourSides
| NotParallel02
| NotParallel13
| NotRightAngle
| LengthsDiffer
| NotSquare
| TooManyEdges
| ParallelEdges.

#[global] Instance exn_eq_dec : EqDecision exn.
Proof. solve_decision. Defined.

Inductive result (A : Type) : Type :=
| Ok (a : A)
| Raise (e : exn).
Arguments Ok {A} a.
Arguments Raise {A} e.

#[global] Instance result_bind : MBind result := λ A B k r,
  match r with
  | Ok a => k a
  | Raise e => Raise e
  end.

#[global] Instance result_ret : MRet result := λ A a, Ok a.

(** [for x in xs: s = body(s, x)], stopping at the first exception. *)
Fixpoint for_each {A S} (xs : list A) (body : S → A → result S) (s : S) : result S :=
  match xs with
  | [] => Ok s
  | x :: rest => s' ← body s x ; for_each rest body s'
  end.

(** ** Python lists *)

Module Py.

(** [range(a, b)] *)
Definition range (a b : Z) : list Z := seqZ a (b - a).

Definition len {A} (l : list A) : Z := Z.of_nat (length l).

(** The position [l[i]] names, if any. *)
Definition norm_index {A} (l : list A) (i : Z) : option nat :=
  if decide (0 ≤ i < len l) then Some (Z.to_nat i)
  else if decide (- len l ≤ i < 0) then Some (Z.to_nat (len l + i))
  else None.

(** [l[i]] *)
Definition get {A} (l : list A) (i : Z) : result A :=
  match norm_index l i with
  | Some n => match l !! n with Some a => Ok a | None => Raise IndexError end
  | None => Raise IndexError
  end.

(** [l[i] = a] *)
Definition set {A} (l : list A) (i : Z) (a : A) : result (list A) :=
  match norm_index l i with
  | Some n => Ok (<[n := a]> l)
  | None => Raise IndexError
  end.

(** [l.pop(i)], keeping the list that is left *)
Definition pop {A} (l : list A) (i : Z) : result (list A) :=
  match norm_index l i with
  | Some n => Ok (delete n l)
  | None => Raise IndexError
  end.

(** [a % b] *)
Definition modulo (a b : Z) : result Z :=
  if decide (b = 0) then Raise ZeroDivisionError else Ok (a `mod` b).

(** [bool(v)] of an integer *)
Definition truthy (v : Z) : bool := negb (v =? 0).

End Py.

(** ** The pixel grid and the border raster *)

Abbreviation point := (Z * Z)%type.
Abbreviation grid := (list (list Z)).

Record Vector : Type := mkVector {
  pixels : grid;
  width : Z;
  height : Z
}.

(** [g[y][x]] *)
Definition get2 (g : grid) (x y : Z) : result Z :=
  row ← Py.get g y ; Py.get row x.

(** [g[y][x] = v]; the rows of the border are separate lists. *)
Definition set2 (g : grid) (x y v : Z) : result grid :=
  row ← Py.get g y ;
  row' ← Py.set row x v ;
  Py.set g y row'.

Definition zeros (w h : Z) : grid :=
  replicate (Z.to_nat h) (replicate (Z.to_nat w) 0).

(** The body of the two loops of [find_border_raster] at [(x, y)]. *)
Definition border_body (px : grid) (y : Z) (border : grid) (x : Z) : result grid :=
  v ← get2 px x y ;
  if decide (v = 0) then Ok border
  else
    above ← get2 px x (y - 1) ;
    below ← get2 px x (y + 1) ;
    left ← get2 px (x - 1) y ;
    right ← get2 px (x + 1) y ;
    if forallb Py.truthy [above; below; left; right] then Ok border
    else set2 border x y 1.

Definition find_border_raster (v : Vector) : result grid :=
  for_each (Py.range 1 (height v - 1))
    (fun border y =>
       for_each (Py.range 1 (width v - 1)) (border_body (pixels v) y) border)
    (zeros (width v) (height v)).

(** A grid of [height v] rows of [width v] pixels each. *)
Definition well_formed (v : Vector) : Prop :=
  Py.len (pixels v) = height v ∧
  Forall (fun row => Py.len row = width v) (pixels v).

Definition in_grid (v : Vector) (x y : Z) : Prop :=
  0 ≤ x < width v ∧ 0 ≤ y < height v.

Definition interior (v : Vector) (x y : Z) : Prop :=
  1 ≤ x < width v - 1 ∧ 1 ≤ y < height v - 1.

(** The cell at [(x, y)] of a grid, for coordinates that are not negative. *)
Definition cell (g : grid) (x y : Z) : option Z :=
  row ← g !! Z.to_nat y ; row !! Z.to_nat x.

Definition has_dims (g : grid) (w h : Z) : Prop :=
  Py.len g = h ∧ Forall (fun row => Py.len row = w) g.

(** The pixel at [(x, y)] of the image, if it has one. *)
Definition pixel_at (v : Vector) (x y : Z) : option Z :=
  if decide (in_grid v x y) then cell (pixels v) x y else None.

Definition foreground (v : Vector) (x y : Z) : Prop :=
  ∃ p, pixel_at v x y = Some p ∧ p ≠ 0.

Definition background (v : Vector) (x y : Z) : Prop :=
  pixel_at v x y = Some 0.

(** A foreground pixel with a background pixel above, below, left or right. *)
Definition on_border (v : Vector) (x y : Z) : Prop :=
  foreground v x y ∧
  (background v x (y - 1) ∨ background v x (y + 1) ∨
   background v (x - 1) y ∨ background v (x + 1) y).

(** The pixel at [(x, y)], 0 outside the grid. *)
Definition px (v : Vector) (x y : Z) : Z := default 0 (cell (pixels v) x y).

(** The cells [find_border_raster] sets to 1. *)
Definition marked (v : Vector) (x y : Z) : bool :=
  bool_decide (interior v x y) &&
  negb (px v x y =? 0) &&
  negb (forallb Py.truthy [px v x (y - 1); px v x (y + 1); px v (x - 1) y; px v (x + 1) y]).

(** What the border holds once the rows before [y], and the cells of row
    [y] before [x], have been visited. *)
Definition border_upto (v : Vector) (y x : Z) (b : grid) : Prop :=
  has_dims b (width v) (height v) ∧
  ∀ x' y', in_grid v x' y' →
    cell b x' y' =
      Some (if marked v x' y' && ((y' <? y) || ((y' =? y) && (x' <? x))) then 1 else 0).

(** A border mask of [h] rows of [w] cells, each 0 or 1, whose 1-cells lie
    strictly inside the image. *)
Definition mask_ok (b : grid) (w h : Z) : Prop :=
  has_dims b w h ∧
  ∀ x y p, 0 ≤ x → 0 ≤ y → cell b x y = Some p →
    p = 0 ∨ (p = 1 ∧ 1 ≤ x < w - 1 ∧ 1 ≤ y < h - 1).

(** ** The boundary walk *)

(** The first border pixel in row-major order: the first row with a truthy
    entry, and the position of the first 1 in it ([row.index(1)]). *)
Fixpoint index_of_one (row : list Z) (x : Z) : result Z :=
  match row with
  | [] => Raise ValueError
  | n :: rest => if decide (n = 1) then Ok x else index_of_one rest (x + 1)
  end.

Fixpoint find_start (rows : grid) (y : Z) : result point :=
  match rows with
  | [] => Raise NoBorderToWalk
  | row :: rest =>
      if existsb Py.truthy row
      then sx ← index_of_one row 0 ; Ok (sx, y)
      else find_start rest (y + 1)
  end.

(** The eight neighbours of [(cx, cy)], clockwise from the one above. *)
Definition neighbors (cx cy : Z) : list point :=
  [ (cx, cy - 1); (cx + 1, cy - 1); (cx + 1, cy); (cx + 1, cy + 1);
    (cx, cy + 1); (cx - 1, cy + 1); (cx - 1, cy); (cx - 1, cy - 1) ].

(** [math.atan2(dy, dx)] of a move to a neighbour, in units of pi/4.  Every
    heading of the walk is such a multiple, and
    [int(round(p_angle * 8.0 / (2 * math.pi)))] recovers the multiple. *)
Definition atan2_octant (dy dx : Z) : Z :=
  match dx, dy with
  | 1, 0 => 0
  | 1, 1 => 1
  | 0, 1 => 2
  | -1, 1 => 3
  | -1, 0 => 4
  | -1, -1 => -3
  | 0, -1 => -2
  | 1, -1 => -1
  | _, _ => 0
  end.

(** The [for i in range(0 + shift, 8 + shift)] loop up to its [break]: the
    first neighbour, in sweep order, that is a border pixel. *)
Fixpoint sweep (border : grid) (nbrs : list point) (idxs : list Z) : result (option point) :=
  match idxs with
  | [] => Ok None
  | i :: rest =>
      '(nx, ny) ← Py.get nbrs (i `mod` Py.len nbrs) ;
      n ← get2 border nx ny ;
      if decide (n = 1) then Ok (Some (nx, ny)) else sweep border nbrs rest
  end.

Record walker : Type := mkWalker {
  cur : point;
  p_angle : Z;
  vertices : list point;
  closed : bool
}.

(** One pass through the body of [while not closed]. *)
Definition walk_step (border : grid) (start : point) (w : walker) : result walker :=
  let '(cx, cy) := cur w in
  let shift := p_angle w in
  found ← sweep border (neighbors cx cy) (Py.range (0 + shift) (8 + shift)) ;
  let w' :=
    match found with
    | Some (nx, ny) =>
        {| cur := (nx, ny);
           p_angle := atan2_octant (ny - cy) (nx - cx);
           vertices := vertices w ++ [(cx, cy)];
           closed := bool_decide ((nx, ny) = start) |}
    | None => w
    end in
  if decide (cur w' = (cx, cy)) then Raise StuckInLoop else Ok w'.

(** [while not closed: ...], with fuel; [None] when the fuel runs out. *)
Fixpoint walk (fuel : nat) (border : grid) (start : point) (w : walker)
  : option (result (list point)) :=
  if closed w then Some (Ok (vertices w))
  else
    match fuel with
    | O => None
    | S fuel' =>
        match walk_step border start w with
        | Raise e => Some (Raise e)
        | Ok w' => walk fuel' border start w'
        end
    end.

(** [vectorize], up to the vertex loop it stores in [self.vertices]; the
    centroid is then taken from it by [util.centroid]. *)
Definition vectorize (fuel : nat) (border : grid) : option (result (list point)) :=
  match find_start border 0 with
  | Raise e => Some (Raise e)
  | Ok start =>
      walk fuel border start
        {| cur := start; p_angle := 0; vertices := [start]; closed := false |}
  end.

(** [process] up to the end of [vectorize]. *)
Definition trace (fuel : nat) (v : Vector) : option (result (list point)) :=
  match find_border_raster v with
  | Raise e => Some (Raise e)
  | Ok border => vectorize fuel border
  end.

(** The 1-pixels of a border mask, in row-major order, and their number. *)
Fixpoint row_ones (row : list Z) (x y : Z) : list point :=
  match row with
  | [] => []
  | n :: rest => (if decide (n = 1) then [(x, y)] else []) ++ row_ones rest (x + 1) y
  end.

Fixpoint ones (rows : grid) (y : Z) : list point :=
  match rows with
  | [] => []
  | row :: rest => row_ones row 0 y ++ ones rest (y + 1)
  end.

Definition border_count (border : grid) : nat := length (ones border 0).

(** *** The walk, as a path on the mask *)

Definition adjacent (a b : point) : Prop := b ∈ neighbors a.1 a.2.

(** No border pixel among the eight neighbours of [c]. *)
Definition isolated (b : grid) (c : point) : Prop :=
  ∀ n, adjacent c n → cell b n.1 n.2 ≠ Some 1.

(** Each point of the list is a neighbour of the one before it. *)
Definition chain (l : list point) : Prop :=
  ∀ (k : nat) a b, l !! k = Some a → l !! S k = Some b → adjacent a b.

(** A 1-cell of the mask. *)
Definition border_pixel (b : grid) (c : point) : Prop :=
  0 ≤ c.1 ∧ 0 ≤ c.2 ∧ cell b c.1 c.2 = Some 1.

(** The walker stands on a border pixel; its path so far started at
    [start] and moved from neighbour to neighbour. *)
Record walking (b : grid) (start : point) (w : walker) : Prop := {
  walking_on_border : border_pixel b (cur w);
  walking_path : ∃ path, vertices w = start :: path ∧
                         head (path ++ [cur w]) = Some start ∧
                         chain (path ++ [cur w]) ∧
                         Forall (border_pixel b) path;
  walking_closed : closed w = true → cur w = start ∧ (2 ≤ length (vertices w))%nat
}.

(** The walker before its first step. *)
Definition at_start (s : point) : walker :=
  {| cur := s; p_angle := 0; vertices := [s]; closed := false |}.

(** *** Example grids *)

(** A filled 2x2 square in the middle of a 4x4 image. *)
Definition square2 : Vector :=
  {| pixels := [ [0; 0; 0; 0];
                 [0; 1; 1; 0];
                 [0; 1; 1; 0];
                 [0; 0; 0; 0] ];
     width := 4; height := 4 |}.

(** A bar two pixels wide that starts in row 0 of the image. *)
Definition bar_from_top : Vector :=
  {| pixels := [ [0; 1; 1; 0];
                 [0; 1; 1; 0];
                 [0; 1; 1; 0];
                 [0; 0; 0; 0] ];
     width := 4; height := 4 |}.

(** A single foreground pixel in the middle of a 3x3 image. *)
Definition lone_pixel : Vector :=
  {| pixels := [ [0; 0; 0];
                 [0; 1; 0];
                 [0; 0; 0] ];
     width := 3; height := 3 |}.

(** A single foreground pixel in the top-left corner of a 3x3 image. *)
Definition corner_pixel : Vector :=
  {| pixels := [ [1; 0; 0];
                 [0; 0; 0];
                 [0; 0; 0] ];
     width := 3; height := 3 |}.


(** ** Merging close points *)

Section Merge.

(** The vertices are compared with [==] only; [util.distance] and
    [util.midpoint_along_path] are the two helpers the loop calls. *)
Context {V : Type} `{EqDecision V}.
Variable distance : V → V → Q.
Variable midpoint_along_path : list V → V → V → V.

(** The vertex that replaces the close pair [(vi, vj)] of [vs]: the
    midpoint along the path, or [vi] when that midpoint is [vj]. *)
Definition merged_vertex (vs : list V) (vi vj : V) : V :=
  let min_v := midpoint_along_path vs vi vj in
  if decide (min_v = vj) then vi else min_v.

(** The position the loop pairs with position [i]. *)
Definition next_index (vs : list V) (i : nat) : nat := (S i `mod` length vs)%nat.

(** The body of the [while] loop of [merge_close_points] at index [i]: the
    list and the index after it. *)
Definition merge_step (threshold : Q) (vs : list V) (i : Z) : result (list V * Z) :=
  i ← Py.modulo i (Py.len vs) ;
  j ← Py.modulo (i + 1) (Py.len vs) ;
  vi ← Py.get vs i ;
  vj ← Py.get vs j ;
  if Qle_bool (distance vi vj) threshold then
    let min_v := midpoint_along_path vs vi vj in
    let min_v := if decide (min_v = vj) then vi else min_v in
    vs ← Py.set vs i min_v ;
    vs ← Py.pop vs j ;
    Ok (vs, i)
  else Ok (vs, i + 1).

(** [while i < len(vs): ...], with fuel. *)
Fixpoint merge_loop (fuel : nat) (threshold : Q) (vs : list V) (i : Z)
  : option (result (list V)) :=
  if decide (i < Py.len vs) then
    match fuel with
    | O => None
    | S fuel' =>
        match merge_step threshold vs i with
        | Raise e => Some (Raise e)
        | Ok (vs', i') => merge_loop fuel' threshold vs' i'
        end
    end
  else Some (Ok vs).

(** [merge_close_points(vs, threshold)]: the list [vs] is updated in place,
    the model returns what it holds at the end. *)
Definition merge_close_points (fuel : nat) (vs : list V) (threshold : Q)
  : option (result (list V)) :=
  merge_loop fuel threshold vs (- Py.len vs).

(** Two vertices the loop would merge. *)
Definition close (threshold : Q) (a b : V) : Prop :=
  (distance a b <= threshold)%Q.

(** No two vertices at consecutive positions of [vs] would be merged. *)
Definition apart (threshold : Q) (vs : list V) : Prop :=
  ∀ (k : nat) a b, vs !! k = Some a → vs !! S k = Some b → ¬ close threshold a b.

(** The pairs up to position [i] would not be merged. *)
Definition apart_before (threshold : Q) (i : nat) (vs : list V) : Prop :=
  ∀ (k : nat) a b, (S k ≤ i)%nat →
    vs !! k = Some a → vs !! S k = Some b → ¬ close threshold a b.

(** The midpoint along the path of two vertices the loop pairs is one of
    the two, for a path that visits no vertex twice. *)
Definition midpoint_within_pair : Prop :=
  ∀ (vs : list V) (i : nat) a b,
    NoDup vs → vs !! i = Some a → vs !! next_index vs i = Some b →
    midpoint_along_path vs a b = a ∨ midpoint_along_path vs a b = b.

(** The same, with the last vertex followed by the first one, as the loop
    pairs them. *)
Definition apart_cyclic (threshold : Q) (vs : list V) : Prop :=
  apart threshold vs ∧
  ∀ a b, list.last vs = Some a → head vs = Some b → ¬ close threshold a b.

End Merge.

(** [apart], computed. *)
Fixpoint apartb {V : Type} (distance : V → V → Q) (threshold : Q) (vs : list V) : bool :=
  match vs with
  | a :: (b :: _) as rest =>
      negb (Qle_bool (distance a b) threshold) && apartb distance threshold rest
  | _ => true
  end.

(** [MERGE_IF_CLOSER_THAN_PX] *)
Definition MERGE_IF_CLOSER_THAN_PX : Q := 1.75.

(** *** The helpers of [common.util], for the examples *)

(** Square roots, cut after four decimal places. *)
Definition Qsqrt (q : Q) : Q :=
  Z.sqrt (Qfloor (q * 100000000)) # 10000.

Definition sq_dist (a b : point) : Z :=
  (a.1 - b.1) ^ 2 + (a.2 - b.2) ^ 2.

(** Modelled from the spec: [util.distance], the Euclidean distance between
    two points. *)
Definition distance (a b : point) : Q := Qsqrt (inject_Z (sq_dist a b)).

(** Modelled from the spec: [util.polyline_length], the sum of the lengths
    of consecutive segments. *)
Fixpoint polyline_length (vs : list point) : Q :=
  match vs with
  | a :: (b :: _) as rest => (distance a b + polyline_length rest)%Q
  | _ => 0%Q
  end.

(** The list up to and including the first [b]. *)
Fixpoint up_to (b : point) (vs : list point) : list point :=
  match vs with
  | [] => []
  | v :: rest => if decide (v = b) then [v] else v :: up_to b rest
  end.

(** The path from the first [a] on, wrapping around to where it started. *)
Fixpoint rotate_to (a : point) (seen vs : list point) : list point :=
  match vs with
  | [] => reverse seen
  | v :: rest => if decide (v = a) then vs ++ reverse seen else rotate_to a (v :: seen) rest
  end.

(** The first vertex at which the length walked reaches [half]. *)
Fixpoint vertex_at (half walked : Q) (prev : point) (vs : list point) : point :=
  match vs with
  | [] => prev
  | v :: rest =>
      let walked := (walked + distance prev v)%Q in
      if Qle_bool half walked then v else vertex_at half walked v rest
  end.

(** Modelled from the spec: [util.midpoint_along_path path a b], the point
    at half the cumulative path length between [a] and [b] walking along
    the path.  The path is a cyclic list of vertices and the point is taken
    among them: the first vertex on the way from [a] to [b] at which the
    length walked reaches half the length of that stretch. *)
Definition midpoint_along_path (path : list point) (a b : point) : point :=
  match rotate_to a [] path with
  | [] => a
  | a' :: rest =>
      let stretch := a' :: (if decide (a' = b) then [] else up_to b rest) in
      vertex_at (polyline_length stretch / 2)%Q 0%Q a' (tail stretch)
  end.

Definition merge_px (vs : list point) : option (result (list point)) :=
  merge_close_points distance midpoint_along_path (2 * length vs) vs MERGE_IF_CLOSER_THAN_PX.


(** ** Sides: extraction and validation *)

(** [math.pi], the double nearest to pi. *)
Definition math_pi : Q := 884279719003555 # 281474976710656.

(** An angle in radians, in the range of [util.angle_between]. *)
Definition in_radians (a : Q) : Prop := (0 <= a < 2 * math_pi)%Q.

(** Degrees in radians. *)
Definition deg (d : Q) : Q := (d * math_pi / 180)%Q.

(** [SIDE_PARALLEL_THRESHOLD_DEG], [SIDES_ORTHOGONAL_THRESHOLD_DEG] *)
Definition SIDE_PARALLEL_THRESHOLD_DEG : Q := 32.
Definition SIDES_ORTHOGONAL_THRESHOLD_DEG : Q := 50.

Module sides.

(** What [sides.Side(piece_id, side_id, vertices, piece_center, is_edge)]
    is given; the piece id is carried by the piece. *)
Record Side (V C : Type) : Type := mkSide {
  vertices : list V;
  piece_center : C;
  is_edge : bool
}.
Arguments mkSide {V C}.
Arguments vertices {V C}.
Arguments piece_center {V C}.
Arguments is_edge {V C}.

End sides.

(** [a / b] on floats *)
Definition fdiv (a b : Q) : result Q :=
  if Qeq_bool b 0 then Raise ZeroDivisionError else Ok (a / b)%Q.

(** [a > b] on floats *)
Definition Qgt_bool (a b : Q) : bool := negb (Qle_bool a b).

(** [a and b], [a or b] on booleans: [b] is evaluated only if needed. *)
Definition py_and (a b : result bool) : result bool :=
  x ← a ; if (x : bool) then b else Ok false.
Definition py_or (a b : result bool) : result bool :=
  x ← a ; if (x : bool) then Ok true else b.

(** [option (result A)]: out of fuel, raised, or returned. *)
Definition and_then {A B} (o : option (result A)) (k : A → option (result B))
  : option (result B) :=
  match o with
  | None => None
  | Some (Raise e) => Some (Raise e)
  | Some (Ok a) => k a
  end.

Section Sides.

Context {V C Seg : Type} `{EqDecision V}.
#[local] Abbreviation Side := (sides.Side V C).

(** [common.util] *)
Variable slice : list V → Z → Z → list V.
Variable ramer_douglas_peucker : list V → Q → list V.
Variable distance : V → V → Q.
Variable midpoint_along_path : list V → V → V → V.
Variable polyline_length : list V → Q.
Variable distance_between_segments : Seg → Seg → Q.
(** The derived attributes of [sides.Side] *)
Variable angle : Side → Q.
Variable length : Side → Q.
Variable segment : Side → Seg.

(** What [extract_four_sides] reads of the piece. *)
Record piece : Type := mkPiece {
  boundary : list V;
  centroid : C;
  corners : list V;
  corner_indices : list Z
}.

(** The endpoint fix-up and the edge test, on the merged vertices of side
    [i]. *)
Definition finish_side (p : piece) (i j : Z) (vs : list V) : result Side :=
  v0 ← Py.get vs 0 ;
  ci ← Py.get (corners p) i ;
  let vs := if decide (v0 ≠ ci) then ci :: vs else vs in
  vl ← Py.get vs (-1) ;
  cj ← Py.get (corners p) j ;
  let vs := if decide (vl ≠ cj) then vs ++ [cj] else vs in
  v0 ← Py.get vs 0 ;
  vl ← Py.get vs (-1) ;
  let corner_corner_distance := distance v0 vl in
  ratio ← fdiv (polyline_length vs) corner_corner_distance ;
  let is_edge := negb (Qle_bool 1.1 ratio) in
  Ok (sides.mkSide vs (centroid p) is_edge).

(** The body of [for i in range(4)]: side [i] is appended to [self.sides]. *)
Definition extract_side (p : piece) (acc : list Side) (i : Z)
  : option (result (list Side)) :=
  let j := (i + 1) `mod` 4 in
  and_then (Some (Py.get (corner_indices p) i)) (fun c_i =>
  and_then (Some (Py.get (corner_indices p) j)) (fun c_j =>
  let vs := slice (boundary p) c_i c_j in
  let vs := ramer_douglas_peucker vs 0.25 in
  and_then
    (merge_close_points distance midpoint_along_path (2 * List.length vs) vs
       MERGE_IF_CLOSER_THAN_PX) (fun vs =>
  and_then (Some (finish_side p i j vs)) (fun side =>
  Some (Ok (acc ++ [side])))))).

Fixpoint extract_sides (p : piece) (acc : list Side) (idxs : list Z)
  : option (result (list Side)) :=
  match idxs with
  | [] => Some (Ok acc)
  | i :: rest => and_then (extract_side p acc i) (fun acc => extract_sides p acc rest)
  end.

(** The parallelism checks on the opposite sides. *)
Definition check_parallel (ss : list Side) : result unit :=
  s0 ← Py.get ss 0 ;
  s2 ← Py.get ss 2 ;
  if Qgt_bool (Qabs (angle s0 - angle s2)) SIDE_PARALLEL_THRESHOLD_DEG
  then Raise NotParallel02
  else
    s1 ← Py.get ss 1 ;
    s3 ← Py.get ss 3 ;
    if Qgt_bool (Qabs (angle s1 - angle s3)) SIDE_PARALLEL_THRESHOLD_DEG
    then Raise NotParallel13
    else Ok ().

(** Sides 0 and 1 at a right angle. *)
Definition check_right_angle (ss : list Side) : result unit :=
  s1 ← Py.get ss 1 ;
  s0 ← Py.get ss 0 ;
  if Qgt_bool (Qabs (angle s1 - angle s0 - 90 * math_pi / 180))
       SIDES_ORTHOGONAL_THRESHOLD_DEG
  then Raise NotRightAngle
  else Ok ().

(** Opposite sides of about the same length. *)
Definition check_lengths (ss : list Side) : result unit :=
  let lengths := map length ss in
  l0 ← Py.get lengths 0 ;
  l2 ← Py.get lengths 2 ;
  let avg02 := ((l0 + l2) / 2)%Q in
  l1 ← Py.get lengths 1 ;
  l3 ← Py.get lengths 3 ;
  let avg13 := ((l1 + l3) / 2)%Q in
  len_ratio02 ← fdiv (Qabs (l0 - l2)) avg02 ;
  len_ratio13 ← fdiv (Qabs (l1 - l3)) avg13 ;
  if Qgt_bool len_ratio02 0.55 || Qgt_bool len_ratio13 0.55
  then Raise LengthsDiffer
  else Ok ().

(** The piece is roughly square: both distances are taken between the
    segments of sides 0 and 2. *)
Definition check_square (ss : list Side) : result unit :=
  s0 ← Py.get ss 0 ;
  s2 ← Py.get ss 2 ;
  let d02 := distance_between_segments (segment s0) (segment s2) in
  s0 ← Py.get ss 0 ;
  s2 ← Py.get ss 2 ;
  let d13 := distance_between_segments (segment s0) (segment s2) in
  if Qgt_bool d02 (1.35 * d13) || Qgt_bool d13 (1.35 * d02)
  then Raise NotSquare
  else Ok ().

(** [ss[k].is_edge] *)
Definition edge_at (ss : list Side) (k : Z) : result bool :=
  s ← Py.get ss k ; Ok (sides.is_edge s).

(** At most two edges, and not two opposite ones. *)
Definition check_edges (ss : list Side) : result unit :=
  let edge_count := Py.len (filter (fun s => sides.is_edge s = true) ss) in
  if decide (edge_count > 2) then Raise TooManyEdges
  else if decide (edge_count = 2) then
    opposite ← py_or (py_and (edge_at ss 0) (edge_at ss 2))
                     (py_and (edge_at ss 1) (edge_at ss 3)) ;
    if (opposite : bool) then Raise ParallelEdges else Ok ()
  else Ok ().

(** The validations of [extract_four_sides], in the order of the source. *)
Definition validate (ss : list Side) : result unit :=
  (if decide (Py.len ss ≠ 4) then Raise ExpectedFourSides else Ok ()) ≫= λ _,
  check_parallel ss ≫= λ _,
  check_right_angle ss ≫= λ _,
  check_lengths ss ≫= λ _,
  check_square ss ≫= λ _,
  check_edges ss.

(** [extract_four_sides]: the sides it leaves in [self.sides] when it
    returns. *)
Definition extract_four_sides (p : piece) : option (result (list Side)) :=
  and_then (extract_sides p [] (Py.range 0 4)) (fun ss =>
  Some (validate ss ≫= λ _, Ok ss)).

End Sides.

Arguments piece : clear implicits.

(** Side [i] of the four runs from corner [i] to the corner after it. *)
Definition side_between {V C : Type} (p : piece V C) (ss : list (sides.Side V C))
    (i : nat) : Prop :=
  ∃ s ci cj, ss !! i = Some s ∧
             corners p !! i = Some ci ∧
             corners p !! (S i `mod` 4)%nat = Some cj ∧
             head (sides.vertices s) = Some ci ∧
             list.last (sides.vertices s) = Some cj.

(** ** Corner candidates from spoke angles *)

(** [a < b] on floats *)
Definition Qlt_bool (a b : Q) : bool := negb (Qle_bool b a).

Abbreviation fpoint := (Q * Q)%type.

(** An integer vertex where a float point is expected. *)
Definition to_float (p : point) : fpoint := (inject_Z p.1, inject_Z p.2).

Record Candidate : Type := mkCandidate {
  cand_v : point;
  cand_i : Z;
  cand_centroid : fpoint;
  cand_angle : Q;
  cand_stdev : Q;
  cand_offset_from_center : Q;
  cand_is_pointed_toward_center : bool;
  cand_midangle : Q
}.

Section Spokes.

(** [math.cos], [math.sin] *)
Variable cos sin : Q → Q.
(** [common.util] *)
Variable slice : list point → Z → Z → list point.
Variable colinearity : point → list point → Q * Q.
Variable counterclockwise_angle_between_vectors : fpoint → fpoint → fpoint → Q.
Variable angle_between : fpoint → fpoint → Q.
Variable midpoint : fpoint → fpoint → fpoint.
Variable compare_angles : Q → Q → Q.

Variable vertices : list point.
Variable centroid : fpoint.

(** The body of the loop of [find_corner_candidates_by_spoke_angles] at
    index [i], without its debug printing: the candidate it appends, if
    any. *)
Definition spoke_candidate (i : Z) : result (option Candidate) :=
  p_i ← Py.get vertices i ;
  let vec_offset := 1 in
  let vec_len := 12 in
  let '(a_ih, stdev_h) :=
    colinearity p_i (slice vertices (i - vec_len - vec_offset) (i - vec_offset - 1)) in
  let '(a_ij, stdev_j) :=
    colinearity p_i (slice vertices (i + vec_offset + 1) (i + vec_len + vec_offset)) in
  let stdev := ((stdev_h + stdev_j) / 2)%Q in
  if Qgt_bool stdev 0.2 then Ok None
  else
    let p_h := (inject_Z p_i.1 + 10 * cos a_ih, inject_Z p_i.2 + 10 * sin a_ih)%Q in
    let p_j := (inject_Z p_i.1 + 10 * cos a_ij, inject_Z p_i.2 + 10 * sin a_ij)%Q in
    let angle_hij := counterclockwise_angle_between_vectors p_h (to_float p_i) p_j in
    let is_roughly_90 :=
      Qlt_bool (Qabs (math_pi / 2 - angle_hij))
               (SIDES_ORTHOGONAL_THRESHOLD_DEG * math_pi / 180) in
    if negb is_roughly_90 then Ok None
    else
      let angle_ih := angle_between (to_float p_i) p_h in
      let a_ic := angle_between (to_float p_i) centroid in
      let opens_toward_angle := angle_between (to_float p_i) (midpoint p_h p_j) in
      let offset_from_center := compare_angles opens_toward_angle a_ic in
      let is_pointed_toward_center := Qlt_bool offset_from_center (angle_hij / 2) in
      let is_corner := is_roughly_90 && is_pointed_toward_center in
      if is_corner then
        Ok (Some {| cand_v := p_i; cand_i := i; cand_centroid := centroid;
                    cand_angle := angle_hij; cand_stdev := 10000;
                    cand_offset_from_center := offset_from_center;
                    cand_is_pointed_toward_center := false;
                    cand_midangle := 10000 |})
      else Ok None.

Definition find_corner_candidates_by_spoke_angles : result (list Candidate) :=
  for_each (Py.range 0 (Py.len vertices))
    (fun candidates i =>
       c ← spoke_candidate i ;
       Ok (match c with Some c => candidates ++ [c] | None => candidates end))
    [].

(** *** The three conditions, as the specification words them *)

(** The two tangent fits at vertex [i]: a window of 12 vertices before it
    and one after it, the immediate neighbour skipped on each side. *)
Definition fit_before (p : point) (i : Z) : Q * Q :=
  colinearity p (slice vertices (i - 13) (i - 2)).
Definition fit_after (p : point) (i : Z) : Q * Q :=
  colinearity p (slice vertices (i + 2) (i + 13)).

Definition mean_dispersion (p : point) (i : Z) : Q :=
  (((fit_before p i).2 + (fit_after p i).2) / 2)%Q.

(** The point 10 units out of [p] in direction [a]. *)
Definition project (p : point) (a : Q) : fpoint :=
  (inject_Z p.1 + 10 * cos a, inject_Z p.2 + 10 * sin a)%Q.

Definition interior_angle (p : point) (i : Z) : Q :=
  counterclockwise_angle_between_vectors
    (project p (fit_before p i).1) (to_float p) (project p (fit_after p i).1).

Definition center_offset (p : point) (i : Z) : Q :=
  compare_angles
    (angle_between (to_float p)
       (midpoint (project p (fit_before p i).1) (project p (fit_after p i).1)))
    (angle_between (to_float p) centroid).

Definition is_spoke_corner (p : point) (i : Z) : Prop :=
  (mean_dispersion p i <= 0.2)%Q ∧
  (Qabs (interior_angle p i - deg 90) < deg 50)%Q ∧
  (center_offset p i < interior_angle p i / 2)%Q.

(** The candidate recorded at vertex [p] of index [i]: it carries the
    interior angle and the offset from the centre; the other scores keep
    their defaults. *)
Definition spoke_candidate_at (p : point) (i : Z) : Candidate :=
  {| cand_v := p; cand_i := i; cand_centroid := centroid;
     cand_angle := interior_angle p i; cand_stdev := 10000;
     cand_offset_from_center := center_offset p i;
     cand_is_pointed_toward_center := false;
     cand_midangle := 10000 |}.

(** The candidates found among the vertices before index [n]. *)
Definition spoke_candidates_before (n : Z) (cs : list Candidate) : Prop :=
  (∀ c, c ∈ cs ↔
        ∃ (i : nat) p, Z.of_nat i < n ∧ vertices !! i = Some p ∧
                       is_spoke_corner p (Z.of_nat i) ∧
                       c = spoke_candidate_at p (Z.of_nat i)) ∧
  NoDup (cand_i <$> cs).

End Spokes.

(** ** Comparing two pieces *)

Section Compare.

Context {S : Type}.
(** [side.error_when_fit_with(other, flip=False, render=False)]: an error,
    or [None] when the two sides cannot fit. *)
Variable error_when_fit_with : S → S → option Q.

(** The inner loop of [compare] for one [start_i]; once [cumulative_error]
    is [None] the loop has been left by [break]. *)
Definition cumulative_error (sides piece : list S) (start_i : Z) : result (option Q) :=
  for_each (Py.range 0 4)
    (fun cumulative p1_side_i =>
       match cumulative with
       | None => Ok None
       | Some c =>
           let p0_side_i := (p1_side_i + start_i) `mod` 4 in
           s0 ← Py.get sides p0_side_i ;
           s1 ← Py.get piece p1_side_i ;
           match error_when_fit_with s0 s1 with
           | None => Ok None
           | Some e => Ok (Some (c + e)%Q)
           end
       end)
    (Some 0%Q).

(** The update of [min_cumulative_error] after one alignment. *)
Definition keep_min (min cumulative : option Q) : option Q :=
  match min with
  | None => cumulative
  | Some m =>
      match cumulative with
      | Some c => if Qlt_bool c m then cumulative else min
      | None => min
      end
  end.

Definition compare (sides piece : list S) : result (option Q) :=
  for_each (Py.range 0 4)
    (fun min start_i =>
       c ← cumulative_error sides piece start_i ;
       Ok (keep_min min c))
    None.

(** *** The comparison, as the specification words it *)

(** The four pairs of alignment [k]: side [(i + k) mod 4] of this piece
    against side [i] of the other. *)
Definition pair_errors (sides piece : list S) (k : Z) : list (option Q) :=
  map (fun i =>
         match sides !! Z.to_nat ((i + k) `mod` 4), piece !! Z.to_nat i with
         | Some s0, Some s1 => error_when_fit_with s0 s1
         | _, _ => None
         end)
      [0; 1; 2; 3].

(** The total of an alignment, or nothing when one of its pairs does not
    fit. *)
Definition alignment_total (sides piece : list S) (k : Z) : option Q :=
  foldr (fun e acc =>
           match e, acc with
           | Some e, Some t => Some (e + t)%Q
           | _, _ => None
           end)
        (Some 0%Q) (pair_errors sides piece k).

(** The code adds the errors from the left, the specification from the
    right: the same number. *)
Definition same_total (c t : option Q) : Prop :=
  match c, t with
  | None, None => True
  | Some x, Some y => (x == y)%Q
  | _, _ => False
  end.

(** [m] is the least total among the alignments that fit. *)
Definition least_total (sides piece : list S) (m : Q) : Prop :=
  (∃ k t, 0 ≤ k < 4 ∧ alignment_total sides piece k = Some t ∧ (m == t)%Q) ∧
  (∀ k t, 0 ≤ k < 4 → alignment_total sides piece k = Some t → (m <= t)%Q).

End Compare.

(** A stand-in for the side-fitting collaborator in the examples: sides are
    given by their lengths, the error of a pair is the difference of the
    two lengths, and a side of length 0 fits nothing. *)
Definition length_error (a b : Z) : option Q :=
  if decide (a = 0 ∨ b = 0) then None else Some (inject_Z (Z.abs (a - b))).

(** ** The helpers of [common.util] and [sides.Side], for the examples *)

Module util.

(** Modelled from the spec: [util.slice(sequence, from_i, to_i)], the cyclic
    sub-sequence from index [from_i] to [to_i] inclusive, both reduced
    modulo the length. *)
Definition slice (l : list point) (from_i to_i : Z) : list point :=
  let n := Py.len l in
  if decide (n = 0) then []
  else
    let i := Z.to_nat (from_i `mod` n) in
    let j := Z.to_nat (to_i `mod` n) in
    if decide (i ≤ j)%nat then take (S j - i) (drop i l)
    else drop i l ++ take (S j) l.

(** Twice the signed area of the triangle [a b p]. *)
Definition cross (a b p : point) : Z :=
  (b.1 - a.1) * (p.2 - a.2) - (b.2 - a.2) * (p.1 - a.1).

(** The squared distance from [p] to the line through [a] and [b] (to [a]
    when the two coincide). *)
Definition sq_dist_to_line (a b p : point) : Q :=
  if decide (sq_dist a b = 0) then inject_Z (sq_dist p a)
  else (inject_Z (cross a b p ^ 2) / inject_Z (sq_dist a b))%Q.

(** The position and squared distance of the point of [ps] farthest from
    the line [a b]; the first one wins a tie. *)
Fixpoint farthest (a b : point) (ps : list point) (k : nat) (best : nat * Q) : nat * Q :=
  match ps with
  | [] => best
  | p :: rest =>
      let d := sq_dist_to_line a b p in
      farthest a b rest (S k) (if Qlt_bool best.2 d then (k, d) else best)
  end.

(** Modelled from the spec: [util.ramer_douglas_peucker(points, epsilon)],
    the standard recursive polyline simplification: the first and the last
    point are kept, and the stretch is split at the point farthest from
    their chord when that point lies more than [epsilon] away from it. *)
Fixpoint rdp (fuel : nat) (ps : list point) (epsilon : Q) : list point :=
  match fuel, ps with
  | S fuel', a :: _ :: _ :: _ =>
      let b := List.last ps a in
      let '(k, d) := farthest a b (removelast (tail ps)) 1 (0%nat, 0%Q) in
      if Qlt_bool (epsilon * epsilon) d then
        removelast (rdp fuel' (take (S k) ps) epsilon) ++ rdp fuel' (drop k ps) epsilon
      else [a; b]
  | _, _ => ps
  end.

Definition ramer_douglas_peucker (ps : list point) (epsilon : Q) : list point :=
  rdp (length ps) ps epsilon.

(** The squared distance from [p] to the segment [a b]. *)
Definition sq_dist_to_segment (p a b : point) : Q :=
  let along := (p.1 - a.1) * (b.1 - a.1) + (p.2 - a.2) * (b.2 - a.2) in
  if decide (along ≤ 0) then inject_Z (sq_dist p a)
  else if decide (sq_dist a b ≤ along) then inject_Z (sq_dist p b)
  else sq_dist_to_line a b p.

(** The two segments cross at a point inside both. *)
Definition crossing (s t : point * point) : bool :=
  bool_decide (cross s.1 s.2 t.1 * cross s.1 s.2 t.2 < 0) &&
  bool_decide (cross t.1 t.2 s.1 * cross t.1 t.2 s.2 < 0).

(** Modelled from the spec: [util.distance_between_segments], the minimum
    distance between two finite line segments: zero when they cross, and
    otherwise the least distance from an endpoint of one to the other. *)
Definition distance_between_segments (s t : point * point) : Q :=
  if crossing s t then 0%Q
  else
    Qsqrt (Qmin (Qmin (sq_dist_to_segment s.1 t.1 t.2) (sq_dist_to_segment s.2 t.1 t.2))
                (Qmin (sq_dist_to_segment t.1 s.1 s.2) (sq_dist_to_segment t.2 s.1 s.2))).

(** Modelled from the spec: [util.angle_between(a, b)], the angle of the
    vector from [a] to [b] in [0, 2 pi).  The arctangent is not rational:
    the model covers the directions along the axes and the diagonals, and
    gives 0 for the others. *)
Definition angle_between (a b : point) : Q :=
  let dx := b.1 - a.1 in
  let dy := b.2 - a.2 in
  let eighths : Z :=
    if decide (dy = 0 ∧ 0 < dx) then 0
    else if decide (dx = dy ∧ 0 < dx) then 1
    else if decide (dx = 0 ∧ 0 < dy) then 2
    else if decide (dx = - dy ∧ 0 < dy) then 3
    else if decide (dy = 0 ∧ dx < 0) then 4
    else if decide (dx = dy ∧ dx < 0) then 5
    else if decide (dx = 0 ∧ dy < 0) then 6
    else if decide (dx = - dy ∧ dy < 0) then 7
    else 0 in
  (inject_Z eighths * math_pi / 4)%Q.

End util.

(** Modelled from the spec: the derived attributes of a Side, its
    endpoint-to-endpoint segment, its overall direction angle and its
    total length. *)
Definition side_segment (s : sides.Side point fpoint) : point * point :=
  (List.hd (0, 0) (sides.vertices s), List.last (sides.vertices s) (0, 0)).
Definition side_angle (s : sides.Side point fpoint) : Q :=
  util.angle_between (side_segment s).1 (side_segment s).2.
Definition side_length (s : sides.Side point fpoint) : Q :=
  polyline_length (sides.vertices s).

(** *** Example pieces *)

(** [n] pixels in a row: from [p] on, each a step [d] from the one before. *)
Fixpoint run (n : nat) (p d : point) : list point :=
  match n with
  | O => []
  | S n' => p :: run n' (p.1 + d.1, p.2 + d.2) d
  end.

(** A piece 4 wide and 8 high, traced clockwise from its top-left corner:
    two straight sides, then one with a tab and one with a dent. *)
Definition tall_piece : piece point fpoint :=
  {| boundary :=
       run 4 (2, 0) (1, 0) ++ run 8 (6, 0) (0, 1) ++
       run 2 (6, 8) (-1, 1) ++ run 2 (4, 10) (-1, -1) ++
       run 2 (2, 8) (-1, -1) ++ run 4 (0, 6) (0, -1) ++ run 2 (0, 2) (1, -1);
     centroid := (4, 4)%Q;
     corners := [ (2, 0); (6, 0); (6, 8); (2, 8) ];
     corner_indices := [ 0; 4; 12; 16 ] |}.

(** A piece whose side 0 runs along the x axis and whose side 2 runs along
    a diagonal; sides 1, 2 and 3 carry a tab or a dent. *)
Definition slanted_piece : piece point fpoint :=
  {| boundary :=
       run 10 (0, 0) (1, 0) ++
       run 6 (10, 0) (1, 1) ++ run 8 (16, 6) (0, 1) ++ run 6 (16, 14) (-1, 1) ++
       run 4 (10, 20) (0, 1) ++ run 6 (10, 24) (-1, 1) ++ run 4 (4, 30) (-1, 0) ++
       run 8 (0, 30) (1, -1) ++ run 14 (8, 22) (0, -1) ++ run 8 (8, 8) (-1, -1);
     centroid := (8, 15)%Q;
     corners := [ (0, 0); (10, 0); (10, 20); (0, 30) ];
     corner_indices := [ 0; 10; 30; 44 ] |}.

(** The start of a boundary with a thin spike: out along row 0, back along
    row 1, between two corners one pixel apart on the diagonal. *)
Definition spike : piece point fpoint :=
  {| boundary := run 6 (0, 0) (1, 0) ++ run 4 (4, 1) (-1, 0);
     centroid := (2, 1)%Q;
     corners := [ (0, 0); (1, 1) ];
     corner_indices := [ 0; 9 ] |}.

(** The sides of [tall_piece]. *)
Definition tall_sides : list (sides.Side point fpoint) :=
  [ sides.mkSide [(2, 0); (6, 0)] (4, 4)%Q true;
    sides.mkSide [(6, 0); (6, 8)] (4, 4)%Q true;
    sides.mkSide [(6, 8); (4, 10); (2, 8)] (4, 4)%Q false;
    sides.mkSide [(2, 8); (0, 6); (0, 2); (2, 0)] (4, 4)%Q false ].

Definition extract_px (p : piece point fpoint) : option (result (list (sides.Side point fpoint))) :=
  extract_four_sides util.slice util.ramer_douglas_peucker distance
    midpoint_along_path polyline_length util.distance_between_segments
    side_angle side_length side_segment p.


(** ** The walk, state by state *)

(** A step of the walk depends on the pixel the walker stands on, on its
    heading and on which of the eight neighbours are border pixels.  The
    definitions below describe the step in these terms; they serve to show
    that the walk ends. *)

(** Which of the eight neighbours of [c] are border pixels, in the order of
    [neighbors]. *)
Definition hits (b : grid) (c : point) : list bool :=
  (λ n : point, bool_decide (cell b n.1 n.2 = Some 1)) <$> neighbors c.1 c.2.

(** Entry [i mod 8] of such a list. *)
Definition bit (N : list bool) (i : Z) : bool :=
  default false (N !! Z.to_nat (i `mod` 8)).

(** The position, among the eight, of the first border pixel that a sweep
    over the indices [idxs] meets. *)
Fixpoint first_hit (N : list bool) (idxs : list Z) : option Z :=
  match idxs with
  | [] => None
  | i :: rest => if bit N i then Some (i `mod` 8) else first_hit N rest
  end.

(** The heading after a move to the neighbour at position [k]: the
    [math.atan2] of the move, in units of pi/4. *)
Definition heading_to (k : Z) : Z := if decide (k = 7) then -3 else k - 2.

(** What a step of the walk depends on: the pixel the walker stands on and
    its heading. *)
Abbreviation state := (point * Z)%type.

Definition state_of (w : walker) : state := (cur w, p_angle w).

(** The step of the walk, on states. *)
Definition advance (b : grid) (x : state) : option state :=
  k ← first_hit (hits b x.1) (Py.range (0 + x.2) (8 + x.2)) ;
  n ← neighbors x.1.1 x.1.2 !! Z.to_nat k ;
  Some (n, heading_to k).

(** The pixel a state was entered from: the neighbour opposite to the
    heading. *)
Definition origin (x : state) : point :=
  default x.1 (neighbors x.1.1 x.1.2 !! Z.to_nat ((x.2 + 6) `mod` 8)).

(** No border pixel behind the walker on its left, nor on its left when it
    heads along an axis: the sweep starts on the left of the heading, and
    the neighbour behind on the left is the last one it would look at. *)
Definition clear_left (N : list bool) (a : Z) : bool :=
  negb (bit N (a - 1)) && (negb (Z.even a) || negb (bit N a)).

(** A state of the walk after its first step: the walker came from a
    border pixel and its left is clear. *)
Definition good (b : grid) (x : state) : Prop :=
  -3 ≤ x.2 ≤ 4 ∧
  clear_left (hits b x.1) x.2 = true ∧
  bit (hits b x.1) (x.2 + 6) = true.

(** The states the walk has been through since it left [s], the latest
    first. *)
Inductive trail (b : grid) (s : point) : list state → Prop :=
| trail_first x : origin x = s → trail b s [x]
| trail_next y x rest :
    advance b x = Some y → trail b s (x :: rest) → trail b s (y :: x :: rest).

(** The lists of [n] booleans. *)
Fixpoint bools (n : nat) : list (list bool) :=
  match n with
  | O => [[]]
  | S n' => (cons true <$> bools n') ++ (cons false <$> bools n')
  end.

(** The headings, and the states on a mask. *)
Definition headings : list Z := seqZ (-3) 8.

Definition states (b : grid) : list state := list_prod (ones b 0) headings.

(** A bar of three pixels in the middle of a 5x3 image. *)
Definition bar3 : Vector :=
  {| pixels := [ [0; 0; 0; 0; 0];
                 [0; 1; 1; 1; 0];
                 [0; 0; 0; 0; 0] ];
     width := 5; height := 3 |}.

(** ** The midpoint along a path, as a point of the path *)

(** The description of [util.midpoint_along_path] leaves open whether the
    point it returns is one of the vertices of the path.
    [midpoint_along_path] above takes it among the vertices; the helpers
    below take the point on the path itself, between two vertices when
    half the length falls there.  Points have float coordinates. *)

#[global] Instance Q_eq_dec : EqDecision Q.
Proof. solve_decision. Defined.

(** Modelled from the spec: [util.distance], on points with float
    coordinates. *)
Definition fdistance (a b : fpoint) : Q :=
  Qsqrt ((a.1 - b.1) * (a.1 - b.1) + (a.2 - b.2) * (a.2 - b.2)).

Fixpoint fpolyline_length (vs : list fpoint) : Q :=
  match vs with
  | a :: (b :: _) as rest => (fdistance a b + fpolyline_length rest)%Q
  | _ => 0%Q
  end.

Fixpoint fup_to (b : fpoint) (vs : list fpoint) : list fpoint :=
  match vs with
  | [] => []
  | v :: rest => if decide (v = b) then [v] else v :: fup_to b rest
  end.

Fixpoint frotate_to (a : fpoint) (seen vs : list fpoint) : list fpoint :=
  match vs with
  | [] => reverse seen
  | v :: rest => if decide (v = a) then vs ++ reverse seen else frotate_to a (v :: seen) rest
  end.

(** The point of the polyline at which the length walked reaches [half]:
    on the segment from [prev] to the next vertex, in proportion to the
    length that is left. *)
Fixpoint point_at (half walked : Q) (prev : fpoint) (vs : list fpoint) : fpoint :=
  match vs with
  | [] => prev
  | v :: rest =>
      let d := fdistance prev v in
      if Qle_bool half (walked + d) then
        if Qeq_bool d 0 then v
        else
          let t := ((half - walked) / d)%Q in
          (Qred (prev.1 + t * (v.1 - prev.1)), Qred (prev.2 + t * (v.2 - prev.2)))
      else point_at half (walked + d) v rest
  end.

(** Modelled from the spec: [util.midpoint_along_path path a b], the point
    at half the cumulative path length between [a] and [b] walking along
    the path, between two vertices of the path when half the length falls
    there. *)
Definition point_along_path (path : list fpoint) (a b : fpoint) : fpoint :=
  match frotate_to a [] path with
  | [] => a
  | a' :: rest =>
      let stretch := a' :: (if decide (a' = b) then [] else fup_to b rest) in
      point_at (fpolyline_length stretch / 2)%Q 0%Q a' (tail stretch)
  end.



(** * Properties *)

(** ** Python lists *)

Lemma bind_ok {A B} (r : result A) (k : A → result B) (b : B) :
  r ≫= k = Ok b ↔ ∃ a, r = Ok a ∧ k a = Ok b.
Proof.
  destruct r as [a|e]; simpl; split.
  - intros Hk. by exists a.
  - by intros (a' & [= <-] & Hk).
  - intros [=].
  - by intros (a' & [=] & _).
Qed.

Lemma ret_bind {A B} (a : A) (k : A → result B) : Ok a ≫= k = k a.
Proof. done. Qed.

Lemma get_nonneg {A} (l : list A) (i : Z) :
  0 ≤ i →
  Py.get l i = match l !! Z.to_nat i with Some a => Ok a | None => Raise IndexError end.
Proof.
  intros Hi. unfold Py.get, Py.norm_index, Py.len.
  destruct (decide (0 ≤ i < Z.of_nat (length l))) as [Hin|Hout]; [done|].
  rewrite decide_False by lia.
  rewrite lookup_ge_None_2 by lia. done.
Qed.

Lemma get_lookup {A} (l : list A) (i : Z) (a : A) :
  0 ≤ i → l !! Z.to_nat i = Some a → Py.get l i = Ok a.
Proof. intros Hi Hl. by rewrite get_nonneg, Hl. Qed.

Lemma get_ok_nonneg {A} (l : list A) (i : Z) (a : A) :
  0 ≤ i → Py.get l i = Ok a → l !! Z.to_nat i = Some a.
Proof.
  intros Hi. rewrite get_nonneg by done.
  destruct (l !! Z.to_nat i); [by intros [= ->] | done].
Qed.

Lemma set_in_range {A} (l : list A) (i : Z) (a : A) :
  0 ≤ i < Py.len l → Py.set l i a = Ok (<[Z.to_nat i := a]> l).
Proof. intros Hi. unfold Py.set, Py.norm_index. by rewrite decide_True. Qed.

(** The loop rule for [for i in range(a, b)]. *)
Lemma for_each_range {S} (I : Z → S → Prop) (body : S → Z → result S) (a b : Z) (s : S) :
  a ≤ b →
  I a s →
  (∀ i s, a ≤ i < b → I i s → ∃ s', body s i = Ok s' ∧ I (i + 1) s') →
  ∃ s', for_each (Py.range a b) body s = Ok s' ∧ I b s'.
Proof.
  intros Hab. unfold Py.range.
  remember (Z.to_nat (b - a)) as n eqn:Hn.
  revert a s Hab Hn. induction n as [|n IH]; intros a s Hab Hn Ha Hstep.
  - assert (b = a) as -> by lia. rewrite Z.sub_diag. simpl. eauto.
  - rewrite seqZ_cons by lia. simpl.
    destruct (Hstep a s) as (s1 & Hb & H1); [lia|done|].
    rewrite Hb. simpl.
    replace (Z.pred (b - a)) with (b - Z.succ a) by lia.
    apply IH; [lia|lia|by rewrite <- Z.add_1_r|].
    intros i s2 Hi. apply Hstep. lia.
Qed.

(** ** The border raster *)

Lemma get2_nonneg (g : grid) (x y : Z) :
  0 ≤ x → 0 ≤ y →
  get2 g x y = match cell g x y with Some p => Ok p | None => Raise IndexError end.
Proof.
  intros Hx Hy. unfold get2, cell. rewrite (get_nonneg g) by done.
  destruct (g !! Z.to_nat y) as [row|]; simpl; [|done].
  by rewrite get_nonneg.
Qed.

Lemma cell_in_dims (g : grid) (w h x y : Z) :
  has_dims g w h → 0 ≤ x < w → 0 ≤ y < h → ∃ p, cell g x y = Some p.
Proof.
  intros [Hh Hw] Hx Hy. unfold cell, Py.len in *.
  destruct (lookup_lt_is_Some_2 g (Z.to_nat y)) as [row Hrow]; [lia|].
  rewrite Hrow. simpl.
  assert (Z.of_nat (length row) = w) as Hlen.
  { by eapply (Forall_lookup_1 _ _ _ _ Hw). }
  apply lookup_lt_is_Some_2. lia.
Qed.

(** Writing one cell of a grid. *)
Lemma set2_spec (g : grid) (w h x y v : Z) :
  has_dims g w h → 0 ≤ x < w → 0 ≤ y < h →
  ∃ g', set2 g x y v = Ok g' ∧ has_dims g' w h ∧
        ∀ x' y', 0 ≤ x' → 0 ≤ y' →
          cell g' x' y' = if decide (x' = x ∧ y' = y) then Some v else cell g x' y'.
Proof.
  intros [Hh Hw] Hx Hy. unfold set2.
  destruct (lookup_lt_is_Some_2 g (Z.to_nat y)) as [row Hrow];
    [unfold Py.len in *; lia|].
  assert (Py.len row = w) as Hlen.
  { by eapply (Forall_lookup_1 _ _ _ _ Hw). }
  rewrite (get_lookup g y row) by (done || lia). simpl.
  rewrite set_in_range by lia. simpl.
  rewrite set_in_range by lia.
  eexists. split; [done|]. split.
  - split.
    + unfold Py.len in *. by rewrite length_insert.
    + apply Forall_insert; [done|]. unfold Py.len in *. by rewrite length_insert.
  - intros x' y' Hx' Hy'. unfold cell.
    destruct (decide (y' = y)) as [->|Hne].
    + rewrite list_lookup_insert_eq by (unfold Py.len in *; lia). simpl.
      destruct (decide (x' = x)) as [->|Hnx].
      * rewrite decide_True by done.
        apply list_lookup_insert_eq. unfold Py.len in *; lia.
      * rewrite decide_False by tauto. rewrite Hrow. simpl.
        apply list_lookup_insert_ne. lia.
    + rewrite decide_False by tauto.
      rewrite list_lookup_insert_ne by lia. done.
Qed.

Lemma for_each_range_empty {S} (body : S → Z → result S) (a b : Z) (s : S) :
  b ≤ a → for_each (Py.range a b) body s = Ok s.
Proof.
  intros Hba. unfold Py.range.
  destruct (decide (b = a)) as [->|Hne].
  - by rewrite Z.sub_diag.
  - by rewrite seqZ_nil by lia.
Qed.

Lemma well_formed_dims (v : Vector) :
  well_formed v → has_dims (pixels v) (width v) (height v).
Proof. done. Qed.

Lemma get2_px (v : Vector) (x y : Z) :
  well_formed v → in_grid v x y → get2 (pixels v) x y = Ok (px v x y).
Proof.
  intros Hwf [Hx Hy]. rewrite get2_nonneg by lia. unfold px.
  destruct (cell_in_dims _ _ _ x y Hwf Hx Hy) as [p ->]. done.
Qed.

Lemma interior_in_grid (v : Vector) (x y : Z) : interior v x y → in_grid v x y.
Proof. unfold interior, in_grid. lia. Qed.

Lemma marked_interior (v : Vector) (x y : Z) : marked v x y = true → interior v x y.
Proof.
  unfold marked. intros H.
  apply andb_prop in H as [H _]. apply andb_prop in H as [H _].
  by apply bool_decide_eq_true in H.
Qed.

Lemma border_body_spec (v : Vector) (b : grid) (x y : Z) :
  well_formed v → interior v x y → has_dims b (width v) (height v) →
  ∃ b', border_body (pixels v) y b x = Ok b' ∧
        has_dims b' (width v) (height v) ∧
        ∀ x' y', 0 ≤ x' → 0 ≤ y' →
          cell b' x' y' =
            if decide (x' = x ∧ y' = y)
            then (if marked v x y then Some 1 else cell b x' y')
            else cell b x' y'.
Proof.
  intros Hwf Hint Hb. unfold border_body, marked.
  assert (Hin := Hint). destruct Hin as [Hx Hy].
  rewrite bool_decide_eq_true_2 by done.
  rewrite (get2_px v x y), ret_bind by (done || unfold in_grid; lia). cbn beta.
  destruct (decide (px v x y = 0)) as [Hz|Hnz].
  - rewrite Hz. exists b. split; [done|]. split; [done|].
    intros x' y' _ _. by destruct (decide _).
  - replace (px v x y =? 0) with false by (symmetry; by apply Z.eqb_neq).
    rewrite (get2_px v x (y - 1)), ret_bind by (done || unfold in_grid; lia). cbn beta.
    rewrite (get2_px v x (y + 1)), ret_bind by (done || unfold in_grid; lia). cbn beta.
    rewrite (get2_px v (x - 1) y), ret_bind by (done || unfold in_grid; lia). cbn beta.
    rewrite (get2_px v (x + 1) y), ret_bind by (done || unfold in_grid; lia). cbn beta.
    destruct (forallb Py.truthy
                [px v x (y - 1); px v x (y + 1); px v (x - 1) y; px v (x + 1) y]).
    + exists b. split; [done|]. split; [done|].
      intros x' y' _ _. by destruct (decide _).
    + destruct (set2_spec b (width v) (height v) x y 1) as (b' & -> & Hd & Hc);
        [done|lia|lia|].
      exists b'. split; [done|]. split; [done|].
      intros x' y' Hx' Hy'. by rewrite Hc.
Qed.

Lemma has_dims_zeros (v : Vector) :
  well_formed v → has_dims (zeros (width v) (height v)) (width v) (height v).
Proof.
  intros [Hlen Hrows]. unfold has_dims, zeros, Py.len in *.
  rewrite length_replicate. split; [lia|].
  destruct (pixels v) as [|row rows].
  - simpl in Hlen. rewrite <- Hlen. simpl. constructor.
  - apply Forall_inv in Hrows.
    apply Forall_replicate. rewrite length_replicate. lia.
Qed.

Lemma cell_zeros (w h x y : Z) :
  0 ≤ x < w → 0 ≤ y < h → cell (zeros w h) x y = Some 0.
Proof.
  intros Hx Hy. unfold cell, zeros.
  rewrite lookup_replicate_2 by lia. simpl.
  apply lookup_replicate_2. lia.
Qed.

Lemma border_row (v : Vector) (y : Z) (b : grid) :
  well_formed v → 1 ≤ y < height v - 1 →
  border_upto v y 1 b →
  ∃ b', for_each (Py.range 1 (width v - 1)) (border_body (pixels v) y) b = Ok b' ∧
        border_upto v (y + 1) 1 b'.
Proof.
  intros Hwf Hy Hb.
  assert (∀ x b, border_upto v y x b → width v - 1 ≤ x → border_upto v (y + 1) 1 b)
    as Hdone.
  { intros x b0 [Hd Hc] Hx. split; [done|]. intros x' y' Hin.
    rewrite Hc by done. f_equal.
    destruct (marked v x' y') eqn:Hm; [|done]. simpl.
    apply marked_interior in Hm as [Hx' Hy'].
    replace (x' <? x) with true by (symmetry; apply Z.ltb_lt; lia).
    replace (x' <? 1) with false by (symmetry; apply Z.ltb_ge; lia).
    rewrite andb_true_r, andb_false_r, orb_false_r.
    destruct (Z.ltb_spec y' y), (Z.eqb_spec y' y), (Z.ltb_spec y' (y + 1)); simpl; (done || lia). }
  destruct (decide (1 ≤ width v - 1)) as [Hw|Hw].
  - destruct (for_each_range (border_upto v y) (border_body (pixels v) y) 1 (width v - 1) b)
      as (b' & Hrun & Hb'); [done|done| |].
    + intros x b0 Hx [Hd Hc].
      destruct (border_body_spec v b0 x y) as (b1 & Hrun & Hd1 & Hc1); [done|done|done|].
      exists b1. split; [done|]. split; [done|].
      intros x' y' Hin. rewrite Hc1 by (destruct Hin; lia). rewrite Hc by done.
      destruct (decide (x' = x ∧ y' = y)) as [[-> ->]|Hne].
      * rewrite Z.ltb_irrefl, Z.eqb_refl.
        replace (x <? x + 1) with true by (symmetry; apply Z.ltb_lt; lia).
        simpl. rewrite andb_true_r.
        by destruct (marked v x y).
      * f_equal. destruct (marked v x' y'); [|done]. simpl.
        destruct (Z.ltb_spec y' y), (Z.eqb_spec y' y), (Z.ltb_spec x' x),
          (Z.ltb_spec x' (x + 1)); simpl; (done || lia).
    + exists b'. split; [done|]. by eapply Hdone.
  - rewrite for_each_range_empty by lia. exists b. split; [done|].
    eapply (Hdone 1); [done|lia].
Qed.

(** The border raster, cell by cell. *)
Lemma find_border_raster_cells (v : Vector) :
  well_formed v →
  ∃ b, find_border_raster v = Ok b ∧
       has_dims b (width v) (height v) ∧
       ∀ x y, in_grid v x y → cell b x y = Some (if marked v x y then 1 else 0).
Proof.
  intros Hwf. unfold find_border_raster.
  assert (border_upto v 1 1 (zeros (width v) (height v))) as H0.
  { split; [by apply has_dims_zeros|]. intros x y [Hx Hy].
    rewrite cell_zeros by done. f_equal.
    destruct (marked v x y) eqn:Hm; [|done]. simpl.
    apply marked_interior in Hm as [Hx' Hy'].
    destruct (Z.ltb_spec y 1), (Z.eqb_spec y 1), (Z.ltb_spec x 1); simpl; (done || lia). }
  assert (∀ y b, border_upto v y 1 b → height v - 1 ≤ y →
                 ∀ x' y', in_grid v x' y' →
                   cell b x' y' = Some (if marked v x' y' then 1 else 0)) as Hdone.
  { intros y b [Hd Hc] Hy x' y' Hin. rewrite Hc by done. f_equal.
    destruct (marked v x' y') eqn:Hm; [|done]. simpl.
    apply marked_interior in Hm as [Hx' Hy'].
    replace (y' <? y) with true by (symmetry; apply Z.ltb_lt; lia). done. }
  destruct (decide (1 ≤ height v - 1)) as [Hh|Hh].
  - destruct (for_each_range (fun y b => border_upto v y 1 b)
                (fun border y =>
                   for_each (Py.range 1 (width v - 1)) (border_body (pixels v) y) border)
                1 (height v - 1) (zeros (width v) (height v)))
      as (b & Hrun & Hb); [done|done| |].
    + intros y b Hy Hb. by apply border_row.
    + exists b. split; [done|]. split; [apply Hb|]. by eapply Hdone.
  - rewrite for_each_range_empty by lia. eexists. split; [done|].
    split; [by apply has_dims_zeros|]. eapply (Hdone 1); [done|lia].
Qed.

Lemma cell_some_in_dims (g : grid) (w h x y p : Z) :
  has_dims g w h → 0 ≤ x → 0 ≤ y → cell g x y = Some p → x < w ∧ y < h.
Proof.
  intros [Hh Hw] Hx Hy Hp. unfold cell in Hp.
  destruct (g !! Z.to_nat y) as [row|] eqn:Hrow; [|done]. simpl in Hp.
  assert (Py.len row = w) as Hlen by (by eapply (Forall_lookup_1 _ _ _ _ Hw)).
  apply lookup_lt_Some in Hp, Hrow. unfold Py.len in *. lia.
Qed.

(** ** The boundary walk *)

Lemma find_border_raster_mask (v : Vector) :
  well_formed v →
  ∃ b, find_border_raster v = Ok b ∧ mask_ok b (width v) (height v).
Proof.
  intros Hwf. destruct (find_border_raster_cells v Hwf) as (b & Hrun & Hd & Hc).
  exists b. split; [done|]. split; [done|].
  intros x y p Hx Hy Hp.
  assert (in_grid v x y) as Hin.
  { destruct (cell_some_in_dims _ _ _ _ _ _ Hd Hx Hy Hp). unfold in_grid. lia. }
  rewrite Hc in Hp by done. injection Hp as <-.
  destruct (marked v x y) eqn:Hm; [right|by left].
  apply marked_interior in Hm. by destruct Hm.
Qed.

Lemma adjacent_near (a b : point) :
  adjacent a b →
  a.1 - 1 ≤ b.1 ≤ a.1 + 1 ∧ a.2 - 1 ≤ b.2 ≤ a.2 + 1 ∧ a ≠ b.
Proof.
  destruct a as [ax ay], b as [bx by_]. unfold adjacent, neighbors. simpl.
  rewrite !elem_of_cons, elem_of_nil.
  intros H. repeat destruct H as [H|H]; try done; injection H as -> ->;
    (split; [lia|split; [lia|intros [=]; lia]]).
Qed.

Lemma adjacent_sym (a b : point) : adjacent a b → adjacent b a.
Proof.
  destruct a as [ax ay], b as [bx by_]. unfold adjacent, neighbors. simpl.
  rewrite !elem_of_cons, !elem_of_nil.
  intros H. repeat destruct H as [H|H]; try done; injection H as -> ->.
  - do 4 right. left. f_equal; lia.
  - do 5 right. left. f_equal; lia.
  - do 6 right. left. f_equal; lia.
  - do 7 right. left. f_equal; lia.
  - left. f_equal; lia.
  - do 1 right. left. f_equal; lia.
  - do 2 right. left. f_equal; lia.
  - do 3 right. left. f_equal; lia.
Qed.

(** Around a pixel strictly inside the image every neighbour can be read. *)
Lemma get2_neighbor (b : grid) (w h : Z) (c n : point) :
  has_dims b w h → 1 ≤ c.1 < w - 1 → 1 ≤ c.2 < h - 1 → adjacent c n →
  ∃ p, cell b n.1 n.2 = Some p ∧ get2 b n.1 n.2 = Ok p.
Proof.
  intros Hd Hx Hy Hn. apply adjacent_near in Hn as (Hnx & Hny & _).
  destruct (cell_in_dims b w h n.1 n.2) as [p Hp]; [done|lia|lia|].
  exists p. split; [done|]. rewrite get2_nonneg by lia. by rewrite Hp.
Qed.

(** The sweep returns the first border pixel among the neighbours it is
    given to look at. *)
Lemma sweep_spec (b : grid) (w h : Z) (c : point) (idxs : list Z) :
  has_dims b w h → 1 ≤ c.1 < w - 1 → 1 ≤ c.2 < h - 1 →
  ∃ r, sweep b (neighbors c.1 c.2) idxs = Ok r ∧
       match r with
       | Some n => adjacent c n ∧ cell b n.1 n.2 = Some 1
       | None => ∀ i n, i ∈ idxs →
                   neighbors c.1 c.2 !! Z.to_nat (i `mod` 8) = Some n →
                   cell b n.1 n.2 ≠ Some 1
       end.
Proof.
  intros Hd Hx Hy. induction idxs as [|i idxs IH].
  - exists None. split; [done|]. intros i n Hi. by apply elem_of_nil in Hi.
  - simpl sweep. change (Py.len (neighbors c.1 c.2)) with 8.
    assert (0 ≤ i `mod` 8 < 8) as Him by (apply Z.mod_pos_bound; lia).
    destruct (lookup_lt_is_Some_2 (neighbors c.1 c.2) (Z.to_nat (i `mod` 8)))
      as [n Hn]; [simpl; lia|].
    rewrite (get_lookup _ _ n) by (lia || done). rewrite ret_bind.
    destruct n as [nx ny].
    assert (adjacent c (nx, ny)) as Hadj by (by eapply list_elem_of_lookup_2).
    destruct (get2_neighbor b w h c (nx, ny)) as (p & Hp & Hg); [done..|].
    simpl in Hp, Hg. rewrite Hg, ret_bind.
    destruct (decide (p = 1)) as [->|Hne].
    + exists (Some (nx, ny)). done.
    + destruct IH as (r & Hr & Hspec). exists r. split; [done|].
      destruct r as [n|]; [done|].
      intros i' n' Hi' Hn'. apply elem_of_cons in Hi' as [->|Hi'].
      * rewrite Hn in Hn'. injection Hn' as <-. simpl. rewrite Hp. congruence.
      * by eapply Hspec.
Qed.

(** A sweep over eight consecutive indices looks at every neighbour. *)
Lemma range_covers (shift : Z) (k : nat) :
  (k < 8)%nat →
  ∃ i, i ∈ Py.range (0 + shift) (8 + shift) ∧ Z.to_nat (i `mod` 8) = k.
Proof.
  intros Hk. exists (shift + (Z.of_nat k - shift) `mod` 8).
  assert (0 ≤ (Z.of_nat k - shift) `mod` 8 < 8) by (apply Z.mod_pos_bound; lia).
  split.
  - unfold Py.range. apply elem_of_seqZ. lia.
  - rewrite Zplus_mod_idemp_r. replace (shift + (Z.of_nat k - shift)) with (Z.of_nat k) by lia.
    rewrite Z.mod_small by lia. lia.
Qed.

Lemma chain_snoc (l : list point) (a b : point) :
  chain (l ++ [a]) → adjacent a b → chain ((l ++ [a]) ++ [b]).
Proof.
  intros Hl Hab k x y Hx Hy.
  destruct (decide (S k < length (l ++ [a]))%nat) as [Hlt|Hge].
  - rewrite lookup_app_l in Hx by lia. rewrite lookup_app_l in Hy by lia. eauto.
  - assert (S k = length (l ++ [a])) as Hk.
    { apply lookup_lt_Some in Hy. rewrite length_app in Hy. simpl in Hy. lia. }
    rewrite lookup_app_l in Hx by lia.
    rewrite lookup_app_r in Hy by lia. rewrite Hk, Nat.sub_diag in Hy.
    injection Hy as <-.
    rewrite length_app in Hk. simpl in Hk.
    rewrite lookup_app_r in Hx by lia.
    replace (k - length l)%nat with 0%nat in Hx by lia. by injection Hx as <-.
Qed.

(** One step of the walk: it moves to a neighbouring border pixel, or finds
    none and raises. *)
Lemma walk_step_spec (b : grid) (w h : Z) (start : point) (wk : walker) :
  mask_ok b w h → walking b start wk →
  (∃ wk', walk_step b start wk = Ok wk' ∧ walking b start wk' ∧
          adjacent (cur wk) (cur wk') ∧
          vertices wk' = vertices wk ++ [cur wk]) ∨
  (walk_step b start wk = Raise StuckInLoop ∧ isolated b (cur wk)).
Proof.
  intros [Hd Hm] [(Hx0 & Hy0 & Hon) (path & Hv & Hhd & Hch & Hall) Hcl].
  destruct (Hm _ _ _ Hx0 Hy0 Hon) as [|(_ & Hx & Hy)]; [done|].
  unfold walk_step. destruct (cur wk) as [cx cy] eqn:Hcur. simpl in *.
  destruct (sweep_spec b w h (cx, cy) (Py.range (0 + p_angle wk) (8 + p_angle wk)))
    as (r & Hsw & Hr); [done..|].
  simpl in Hsw. rewrite Hsw.
  rewrite ret_bind. destruct r as [[nx ny]|].
  - left. destruct Hr as [Hadj Hn]. simpl in Hn.
    pose proof (adjacent_near _ _ Hadj) as (Hnx & Hny & Hne). simpl in *.
    rewrite decide_False by congruence.
    eexists. split; [done|]. split; [|split; done].
    split; simpl.
    + unfold border_pixel. simpl. split; [lia|]. split; [lia|done].
    + exists (path ++ [(cx, cy)]). rewrite Hv. split; [done|]. split.
      * destruct path; simpl in *; done.
      * split; [by apply chain_snoc|].
        apply Forall_app. split; [done|]. by repeat constructor.
    + intros Hc. apply bool_decide_eq_true in Hc. split; [done|].
      rewrite Hv, length_app. simpl. lia.
  - right. rewrite decide_True by done. split; [done|].
    intros n Hadj. apply list_elem_of_lookup_1 in Hadj as [k Hk].
    destruct (range_covers (p_angle wk) k) as (i & Hi & Hik).
    { apply lookup_lt_Some in Hk. simpl in Hk. lia. }
    eapply Hr; [done|]. by rewrite Hik.
Qed.

Lemma index_of_one_spec (row : list Z) (x0 : Z) :
  (∀ (j : nat) n, row !! j = Some n → n = 0 ∨ n = 1) →
  existsb Py.truthy row = true →
  ∃ x, index_of_one row x0 = Ok x ∧ x0 ≤ x ∧ row !! Z.to_nat (x - x0) = Some 1.
Proof.
  revert x0. induction row as [|n row IH]; intros x0 Hbits Hany; [done|].
  simpl. destruct (decide (n = 1)) as [->|Hne].
  - exists x0. split; [done|]. split; [lia|]. by rewrite Z.sub_diag.
  - destruct (Hbits 0%nat n) as [->|]; [done| |done].
    simpl in Hany.
    destruct (IH (x0 + 1)) as (x & Hx & Hle & Hl); [|done|].
    { intros j m Hj. by apply (Hbits (S j)). }
    exists x. split; [done|]. split; [lia|].
    replace (Z.to_nat (x - x0)) with (S (Z.to_nat (x - (x0 + 1)))) by lia. done.
Qed.

(** The start of the walk is a border pixel, unless the mask has none. *)
Lemma find_start_spec (b : grid) (w h : Z) :
  mask_ok b w h →
  find_start b 0 = Raise NoBorderToWalk ∨
  ∃ s, find_start b 0 = Ok s ∧ 0 ≤ s.1 ∧ 0 ≤ s.2 ∧ cell b s.1 s.2 = Some 1.
Proof.
  intros [Hd Hm].
  assert (∀ rows y0, 0 ≤ y0 →
            (∀ (j : nat) row, rows !! j = Some row → b !! (Z.to_nat y0 + j)%nat = Some row) →
            find_start rows y0 = Raise NoBorderToWalk ∨
            ∃ s, find_start rows y0 = Ok s ∧ 0 ≤ s.1 ∧ 0 ≤ s.2 ∧
                 cell b s.1 s.2 = Some 1) as Hgen.
  { induction rows as [|row rows IH]; intros y0 Hy0 Hrows; [by left|].
    simpl. destruct (existsb Py.truthy row) eqn:Hany.
    - right.
      assert (b !! Z.to_nat y0 = Some row) as Hrow.
      { rewrite <- (Hrows 0%nat row) by done. f_equal. lia. }
      destruct (index_of_one_spec row 0) as (x & -> & Hx & Hl); [|done|].
      { intros j n Hj.
        destruct (Hm (Z.of_nat j) y0 n) as [|[? _]]; [lia|done| |by left|by right].
        unfold cell. rewrite Hrow. simpl. by rewrite Nat2Z.id. }
      rewrite ret_bind. exists (x, y0). split; [done|]. simpl.
      split; [lia|]. split; [done|].
      unfold cell. rewrite Hrow. simpl. by rewrite Z.sub_0_r in Hl.
    - apply IH; [lia|]. intros j r Hj.
      rewrite <- (Hrows (S j) r) by done. f_equal. lia. }
  apply Hgen; [done|]. intros j row Hj. done.
Qed.

(** Once the walker has moved, the pixel it came from is a border pixel
    next to it: the sweep finds a neighbour at every later step. *)
Lemma walk_on (b : grid) (w h : Z) (start : point) (fuel : nat) (wk : walker) :
  mask_ok b w h → walking b start wk →
  (closed wk = false → ¬ isolated b (cur wk)) →
  walk fuel b start wk = None ∨
  ∃ wk', walk fuel b start wk = Some (Ok (vertices wk')) ∧
         walking b start wk' ∧ closed wk' = true.
Proof.
  intros Hm. revert wk. induction fuel as [|fuel IH]; intros wk Hwk Hprev.
  - simpl. destruct (closed wk) eqn:Hc; [right; by exists wk|by left].
  - simpl. destruct (closed wk) eqn:Hc; [right; by exists wk|].
    destruct (walk_step_spec b w h start wk Hm Hwk)
      as [(wk' & -> & Hwk' & Hadj & _)|[_ Hiso]]; [|by destruct Hprev].
    apply IH; [done|]. intros _ Hiso.
    apply (Hiso (cur wk)); [by apply adjacent_sym|]. apply Hwk.
Qed.

Lemma walking_at_start (b : grid) (s : point) :
  0 ≤ s.1 → 0 ≤ s.2 → cell b s.1 s.2 = Some 1 → walking b s (at_start s).
Proof.
  intros Hx Hy Hs. split; simpl; [done| |done].
  exists []. split; [done|]. split; [done|]. split; [|constructor].
  intros k x y Hx' Hy'. destruct k; done.
Qed.

(** The outcomes of [vectorize] on a border mask: no border, stuck on the
    first step at a start pixel without neighbours, out of fuel, or back at
    the start. *)
Lemma vectorize_outcomes (b : grid) (w h : Z) (fuel : nat) :
  mask_ok b w h →
  match vectorize fuel b with
  | None => True
  | Some (Raise e) =>
      (e = NoBorderToWalk ∧ find_start b 0 = Raise NoBorderToWalk) ∨
      (e = StuckInLoop ∧ ∃ s, find_start b 0 = Ok s ∧ isolated b s)
  | Some (Ok vs) =>
      ∃ s wk, find_start b 0 = Ok s ∧ ¬ isolated b s ∧
              vs = vertices wk ∧ walking b s wk ∧ closed wk = true
  end.
Proof.
  intros Hm. unfold vectorize.
  destruct (find_start_spec b w h Hm) as [->|(s & -> & Hx & Hy & Hs)]; [by left|].
  fold (at_start s). pose proof (walking_at_start b s Hx Hy Hs) as Hwk0.
  destruct fuel as [|fuel]; [done|]. simpl.
  destruct (walk_step_spec b w h s (at_start s) Hm Hwk0)
    as [(wk' & -> & Hwk' & Hadj & _)|[-> Hiso]].
  - assert (¬ isolated b s) as Hnot.
    { intros Hiso. apply (Hiso (cur wk')); [done|]. apply Hwk'. }
    destruct (walk_on b w h s fuel wk' Hm Hwk') as [->|(wk & -> & Hwk & Hc)]; [|done|].
    + intros _ Hiso. apply (Hiso s); [by apply adjacent_sym|done].
    + by exists s, wk.
  - right. split; [done|]. by exists s.
Qed.

(** A start pixel without border neighbours stops the walk at once. *)
Lemma vectorize_stuck (b : grid) (w h : Z) (fuel : nat) (s : point) :
  mask_ok b w h → find_start b 0 = Ok s → isolated b s →
  vectorize (S fuel) b = Some (Raise StuckInLoop).
Proof.
  intros Hm Hs Hiso. unfold vectorize. rewrite Hs. fold (at_start s). simpl.
  destruct (find_start_spec b w h Hm) as [Hno|(s' & Hs' & Hx & Hy & Hc)]; [congruence|].
  assert (s' = s) as -> by congruence.
  destruct (walk_step_spec b w h s (at_start s) Hm (walking_at_start b s Hx Hy Hc))
    as [(wk' & _ & Hwk' & Hadj & _)|[-> _]]; [|done].
  exfalso. apply (Hiso (cur wk')); [done|]. apply Hwk'.
Qed.

Lemma pixel_at_px (v : Vector) (x y : Z) :
  well_formed v → in_grid v x y → pixel_at v x y = Some (px v x y).
Proof.
  intros Hwf Hin. unfold pixel_at, px. rewrite decide_True by done.
  destruct Hin as [Hx Hy].
  by destruct (cell_in_dims _ _ _ x y Hwf Hx Hy) as [p ->].
Qed.

(** The cells set to 1 are the interior pixels on the border of the
    foreground. *)
Lemma marked_on_border (v : Vector) (x y : Z) :
  well_formed v → in_grid v x y →
  marked v x y = true ↔ interior v x y ∧ on_border v x y.
Proof.
  intros Hwf Hin. unfold marked, on_border, foreground, background. split.
  - intros H. apply andb_prop in H as [H Hnb]. apply andb_prop in H as [Hi Hfg].
    apply bool_decide_eq_true in Hi. split; [done|].
    assert (Hi' := Hi). destruct Hi' as [Hx Hy].
    rewrite !pixel_at_px by (done || unfold in_grid; lia).
    split.
    + exists (px v x y). split; [done|]. apply negb_true_iff, Z.eqb_neq in Hfg. done.
    + apply negb_true_iff in Hnb. simpl in Hnb. unfold Py.truthy in Hnb.
      destruct (Z.eqb_spec (px v x (y - 1)) 0) as [->|]; [by left|].
      destruct (Z.eqb_spec (px v x (y + 1)) 0) as [->|]; [by right; left|].
      destruct (Z.eqb_spec (px v (x - 1) y) 0) as [->|]; [by right; right; left|].
      destruct (Z.eqb_spec (px v (x + 1) y) 0) as [->|]; [by right; right; right|].
      done.
  - intros [Hi [(p & Hp & Hne) Hbg]].
    assert (Hi' := Hi). destruct Hi' as [Hx Hy].
    rewrite !pixel_at_px in * by (done || unfold in_grid; lia).
    injection Hp as <-.
    rewrite bool_decide_eq_true_2 by done.
    replace (px v x y =? 0) with false by (symmetry; by apply Z.eqb_neq).
    simpl. unfold Py.truthy.
    destruct Hbg as [H|[H|[H|H]]]; injection H as ->; simpl;
      rewrite ?andb_false_r; done.
Qed.

(** C3, as amended: for an image of [height] rows of [width] pixels,
    [find_border_raster] returns a mask of the same dimensions whose cells
    are 0 or 1, and the cell at [(x, y)] is 1 exactly when [(x, y)] lies
    strictly inside the image (not in row 0, column 0, the last row or the
    last column) and is a foreground pixel with a background pixel above,
    below, left or right of it. *)
Theorem border_mask_interior (v : Vector) :
  well_formed v →
  ∃ b, find_border_raster v = Ok b ∧
       has_dims b (width v) (height v) ∧
       ∀ x y, in_grid v x y →
         (get2 b x y = Ok 1 ∨ get2 b x y = Ok 0) ∧
         (get2 b x y = Ok 1 ↔ interior v x y ∧ on_border v x y).
Proof.
  intros Hwf. destruct (find_border_raster_cells v Hwf) as (b & Hrun & Hd & Hc).
  exists b. split; [done|]. split; [done|].
  intros x y Hin. assert (Hin' := Hin). destruct Hin' as [Hx Hy].
  rewrite get2_nonneg by lia. rewrite Hc by done.
  rewrite <- marked_on_border by done.
  destruct (marked v x y); split; try (by left); try (by right); split; done.
Qed.

Lemma border_mask_interior_witness :
  ∃ b, find_border_raster square2 = Ok b ∧
       has_dims b 4 4 ∧
       ∀ x y, in_grid square2 x y →
         (get2 b x y = Ok 1 ∨ get2 b x y = Ok 0) ∧
         (get2 b x y = Ok 1 ↔ interior square2 x y ∧ on_border square2 x y).
Proof.
  apply (border_mask_interior square2).
  split; [reflexivity|]. repeat constructor.
Defined.

(** C3, as stated, fails in row 0: the top-left pixel of [corner_pixel] is
    foreground and the pixel to its right is background, yet the mask is 0
    there. *)
Lemma border_mask_misses_image_edge :
  well_formed corner_pixel ∧
  in_grid corner_pixel 0 0 ∧
  on_border corner_pixel 0 0 ∧
  find_border_raster corner_pixel = Ok (zeros 3 3) ∧
  get2 (zeros 3 3) 0 0 = Ok 0.
Proof.
  split; [split; [reflexivity|repeat constructor]|].
  split; [unfold in_grid; simpl; lia|].
  split; [|split; reflexivity].
  split.
  - exists 1. split; [reflexivity|lia].
  - right; right; right. reflexivity.
Qed.

(** *** Counting the border pixels *)

Lemma elem_of_row_ones (row : list Z) (x0 y : Z) (c : point) :
  c ∈ row_ones row x0 y ↔
  c.2 = y ∧ x0 ≤ c.1 ∧ row !! Z.to_nat (c.1 - x0) = Some 1.
Proof.
  revert x0. induction row as [|n row IH]; intros x0; simpl.
  - rewrite elem_of_nil. split; [done|]. by intros (_ & _ & ?).
  - rewrite elem_of_app, IH. destruct c as [cx cy]. simpl. split.
    + intros [Hin|(Hy & Hx & Hl)].
      * destruct (decide (n = 1)) as [->|]; [|by apply elem_of_nil in Hin].
        apply list_elem_of_singleton in Hin. injection Hin as -> ->.
        split; [done|]. split; [lia|]. by rewrite Z.sub_diag.
      * split; [done|]. split; [lia|].
        replace (Z.to_nat (cx - x0)) with (S (Z.to_nat (cx - (x0 + 1)))) by lia. done.
    + intros (Hy & Hx & Hl). destruct (decide (cx = x0)) as [->|Hne].
      * left. rewrite Z.sub_diag in Hl. simpl in Hl. injection Hl as ->.
        rewrite decide_True by done. apply list_elem_of_singleton. by rewrite Hy.
      * right. split; [done|]. split; [lia|].
        replace (Z.to_nat (cx - x0)) with (S (Z.to_nat (cx - (x0 + 1)))) in Hl by lia.
        done.
Qed.

Lemma NoDup_row_ones (row : list Z) (x0 y : Z) : NoDup (row_ones row x0 y).
Proof.
  revert x0. induction row as [|n row IH]; intros x0; simpl; [constructor|].
  apply NoDup_app. split; [|split; [|apply IH]].
  - destruct (decide (n = 1)); [apply NoDup_singleton|constructor].
  - intros c Hc Hin. apply elem_of_row_ones in Hin as (_ & Hx & _).
    destruct (decide (n = 1)); [|by apply elem_of_nil in Hc].
    apply list_elem_of_singleton in Hc. subst c. simpl in Hx. lia.
Qed.

Lemma elem_of_ones (rows : grid) (y0 : Z) (c : point) :
  c ∈ ones rows y0 ↔
  y0 ≤ c.2 ∧ 0 ≤ c.1 ∧
  ∃ row, rows !! Z.to_nat (c.2 - y0) = Some row ∧ row !! Z.to_nat c.1 = Some 1.
Proof.
  revert y0. induction rows as [|row rows IH]; intros y0; simpl.
  - rewrite elem_of_nil. split; [done|]. by intros (_ & _ & ? & ? & _).
  - rewrite elem_of_app, IH, elem_of_row_ones. split.
    + intros [(Hy & Hx & Hl)|(Hy & Hx & r & Hr & Hl)].
      * split; [lia|]. split; [done|]. exists row.
        rewrite Hy, Z.sub_diag. split; [done|]. by rewrite Z.sub_0_r in Hl.
      * split; [lia|]. split; [done|]. exists r. split; [|done].
        replace (Z.to_nat (c.2 - y0)) with (S (Z.to_nat (c.2 - (y0 + 1)))) by lia. done.
    + intros (Hy & Hx & r & Hr & Hl). destruct (decide (c.2 = y0)) as [Heq|Hne].
      * left. rewrite Heq, Z.sub_diag in Hr. simpl in Hr. injection Hr as ->.
        split; [done|]. split; [done|]. by rewrite Z.sub_0_r.
      * right. split; [lia|]. split; [done|]. exists r. split; [|done].
        replace (Z.to_nat (c.2 - y0)) with (S (Z.to_nat (c.2 - (y0 + 1)))) in Hr by lia.
        done.
Qed.

Lemma NoDup_ones (rows : grid) (y0 : Z) : NoDup (ones rows y0).
Proof.
  revert y0. induction rows as [|row rows IH]; intros y0; simpl; [constructor|].
  apply NoDup_app. split; [apply NoDup_row_ones|]. split; [|apply IH].
  intros c Hc Hin. apply elem_of_row_ones in Hc as (Hy & _).
  apply elem_of_ones in Hin as (Hy' & _). lia.
Qed.

Lemma elem_of_ones_border_pixel (b : grid) (c : point) :
  c ∈ ones b 0 ↔ border_pixel b c.
Proof.
  rewrite elem_of_ones. unfold border_pixel, cell. rewrite Z.sub_0_r. split.
  - intros (Hy & Hx & row & -> & Hl). done.
  - intros (Hx & Hy & Hc). split; [done|]. split; [done|].
    destruct (b !! Z.to_nat c.2) as [row|]; [|done]. by exists row.
Qed.

(** A path that visits every border pixel once has as many points as the
    mask has border pixels. *)
Lemma length_of_full_path (b : grid) (path : list point) :
  NoDup path → (∀ c, c ∈ path ↔ border_pixel b c) →
  length path = border_count b.
Proof.
  intros Hnd Hall. unfold border_count. apply Permutation_length.
  apply NoDup_Permutation; [done|apply NoDup_ones|].
  intros c. by rewrite Hall, elem_of_ones_border_pixel.
Qed.

(** *** The walk ends *)

Lemma bools_complete (N : list bool) : N ∈ bools (length N).
Proof.
  induction N as [|x N IH]; simpl; [by apply list_elem_of_singleton|].
  apply elem_of_app. destruct x; [left|right]; by apply list_elem_of_fmap_2.
Qed.

(** A property of the eight neighbours and the heading is checked on all
    of them. *)
Lemma for_all_hits (P : list bool → Z → bool) :
  forallb (λ N, forallb (P N) headings) (bools 8) = true →
  ∀ N a, length N = 8%nat → -3 ≤ a ≤ 4 → P N a = true.
Proof.
  intros Hall N a HN Ha.
  rewrite forallb_forall in Hall.
  assert (N ∈ bools 8) as HNin by (rewrite <- HN; apply bools_complete).
  apply list_elem_of_In in HNin. specialize (Hall N HNin).
  rewrite forallb_forall in Hall. apply Hall.
  apply list_elem_of_In. unfold headings. apply elem_of_seqZ. lia.
Qed.

Lemma first_hit_spec (N : list bool) (idxs : list Z) (k : Z) :
  first_hit N idxs = Some k → 0 ≤ k < 8 ∧ bit N k = true.
Proof.
  induction idxs as [|i idxs IH]; simpl; [done|].
  destruct (bit N i) eqn:Hi; [|done]. intros [= <-].
  split; [apply Z.mod_pos_bound; lia|].
  unfold bit in *. by rewrite Z.mod_mod by lia.
Qed.

(** A clear left stays clear: when the sweep stops at neighbour [k], the
    neighbours that end up behind the walker on its left, and on its left
    after a move along an axis, are among those the sweep has passed. *)
Lemma clear_left_kept (N : list bool) (a k : Z) :
  length N = 8%nat → -3 ≤ a ≤ 4 →
  clear_left N a = true →
  first_hit N (Py.range (0 + a) (8 + a)) = Some k →
  bit N (if Z.even k then k + 6 else k + 7) = false ∧
  (Z.even k = true → bit N (k + 7) = false).
Proof.
  intros HN Ha Hc Hk.
  pose proof (for_all_hits
    (λ N a, implb (clear_left N a)
       match first_hit N (Py.range (0 + a) (8 + a)) with
       | None => true
       | Some k => negb (bit N (if Z.even k then k + 6 else k + 7)) &&
                   (negb (Z.even k) || negb (bit N (k + 7)))
       end)) as Hall.
  specialize (Hall ltac:(vm_compute; reflexivity) N a HN Ha).
  cbn beta in Hall. rewrite Hc, Hk in Hall. simpl in Hall.
  apply andb_prop in Hall as [H1 H2]. apply negb_true_iff in H1.
  split; [done|]. intros He. rewrite He in H2. simpl in H2.
  by apply negb_true_iff in H2.
Qed.

(** Two headings with a clear left, both entered from a border pixel, send
    the sweep to different neighbours. *)
Lemma first_hit_inj (N : list bool) (a a' : Z) :
  length N = 8%nat → -3 ≤ a ≤ 4 → -3 ≤ a' ≤ 4 →
  clear_left N a = true → bit N (a + 6) = true →
  clear_left N a' = true → bit N (a' + 6) = true →
  first_hit N (Py.range (0 + a) (8 + a)) = first_hit N (Py.range (0 + a') (8 + a')) →
  a = a'.
Proof.
  intros HN Ha Ha' Hc Hb Hc' Hb' Heq.
  pose proof (for_all_hits
    (λ N a, forallb (λ a',
       implb (clear_left N a && bit N (a + 6) && clear_left N a' && bit N (a' + 6) &&
              bool_decide (first_hit N (Py.range (0 + a) (8 + a)) =
                           first_hit N (Py.range (0 + a') (8 + a'))))
             (a =? a')) headings)) as Hall.
  specialize (Hall ltac:(vm_compute; reflexivity) N a HN Ha).
  cbn beta in Hall. rewrite forallb_forall in Hall.
  assert (In a' headings) as Hin.
  { apply list_elem_of_In. unfold headings. apply elem_of_seqZ. lia. }
  specialize (Hall a' Hin). rewrite Hc, Hb, Hc', Hb' in Hall.
  rewrite bool_decide_eq_true_2 in Hall by done. simpl in Hall.
  by apply Z.eqb_eq.
Qed.

(** A walker that came from a border pixel finds a neighbour to go to. *)
Lemma first_hit_back (N : list bool) (a : Z) :
  length N = 8%nat → -3 ≤ a ≤ 4 → bit N (a + 6) = true →
  is_Some (first_hit N (Py.range (0 + a) (8 + a))).
Proof.
  intros HN Ha Hb.
  pose proof (for_all_hits
    (λ N a, implb (bit N (a + 6))
       match first_hit N (Py.range (0 + a) (8 + a)) with
       | None => false
       | Some _ => true
       end)) as Hall.
  specialize (Hall ltac:(vm_compute; reflexivity) N a HN Ha).
  cbn beta in Hall. rewrite Hb in Hall. simpl in Hall.
  by destruct (first_hit _ _).
Qed.

Lemma length_hits (b : grid) (c : point) : length (hits b c) = 8%nat.
Proof. done. Qed.

Lemma bit_hits (b : grid) (c n : point) (i : Z) :
  neighbors c.1 c.2 !! Z.to_nat (i `mod` 8) = Some n →
  bit (hits b c) i = bool_decide (cell b n.1 n.2 = Some 1).
Proof.
  intros Hn. unfold bit, hits. by rewrite list_lookup_fmap, Hn.
Qed.

Lemma neighbor_at (c : point) (k : Z) :
  0 ≤ k < 8 → ∃ n, neighbors c.1 c.2 !! Z.to_nat k = Some n.
Proof. intros Hk. apply lookup_lt_is_Some_2. simpl. lia. Qed.

(** The neighbour at position [k], seen from the pixel and from the
    neighbour: the move has heading [heading_to k], it leads back to the
    pixel, and what lies behind the walker on its left, or on its left, is
    a neighbour of the pixel it left. *)
Lemma neighbor_geometry (c n : point) (k : Z) :
  0 ≤ k < 8 → neighbors c.1 c.2 !! Z.to_nat k = Some n →
  n ≠ c ∧
  atan2_octant (n.2 - c.2) (n.1 - c.1) = heading_to k ∧
  -3 ≤ heading_to k ≤ 4 ∧
  Z.even (heading_to k) = Z.even k ∧
  origin (n, heading_to k) = c ∧
  neighbors n.1 n.2 !! Z.to_nat ((heading_to k - 1) `mod` 8) =
    neighbors c.1 c.2 !! Z.to_nat ((if Z.even k then k + 6 else k + 7) `mod` 8) ∧
  (Z.even k = true →
   neighbors n.1 n.2 !! Z.to_nat (heading_to k `mod` 8) =
     neighbors c.1 c.2 !! Z.to_nat ((k + 7) `mod` 8)).
Proof.
  intros Hk Hn. destruct c as [cx cy].
  assert (k = 0 ∨ k = 1 ∨ k = 2 ∨ k = 3 ∨ k = 4 ∨ k = 5 ∨ k = 6 ∨ k = 7)
    as [-> | [-> | [-> | [-> | [-> | [-> | [-> | ->]]]]]]] by lia;
    simpl in Hn; injection Hn as <-; unfold origin, heading_to; simpl;
    repeat match goal with
           | |- context [?x + ?d - ?x] => replace (x + d - x) with d by lia
           | |- context [?x - ?d - ?x] => replace (x - d - x) with (- d) by lia
           | |- context [?x - ?x] => replace (x - x) with 0 by lia
           end; simpl;
    (split; [intros [=]; lia|]); (split; [reflexivity|]); (split; [lia|]);
    (split; [reflexivity|]); (split; [f_equal; lia|]);
    (split; [f_equal; f_equal; lia|]);
    intros He; try discriminate He; f_equal; f_equal; lia.
Qed.

(** The sweep of the code stops at the neighbour [first_hit] names. *)
Lemma sweep_first_hit (b : grid) (w h : Z) (c : point) (idxs : list Z) :
  has_dims b w h → 1 ≤ c.1 < w - 1 → 1 ≤ c.2 < h - 1 →
  sweep b (neighbors c.1 c.2) idxs =
    Ok (first_hit (hits b c) idxs ≫= λ k, neighbors c.1 c.2 !! Z.to_nat k).
Proof.
  intros Hd Hx Hy. induction idxs as [|i idxs IH]; [done|].
  simpl sweep. change (Py.len (neighbors c.1 c.2)) with 8.
  assert (0 ≤ i `mod` 8 < 8) as Him by (apply Z.mod_pos_bound; lia).
  destruct (neighbor_at c (i `mod` 8) Him) as [n Hn].
  rewrite (get_lookup _ _ n) by (lia || done). rewrite ret_bind.
  assert (adjacent c n) as Hadj by (by eapply list_elem_of_lookup_2).
  destruct (get2_neighbor b w h c n) as (p & Hp & Hg); [done..|].
  destruct n as [nx ny]. simpl in Hp, Hg. rewrite Hg, ret_bind.
  simpl first_hit. rewrite (bit_hits b c (nx, ny) i Hn). simpl. rewrite Hp.
  destruct (decide (p = 1)) as [->|Hne].
  - rewrite bool_decide_eq_true_2 by done. simpl. by rewrite Hn.
  - rewrite bool_decide_eq_false_2 by congruence. done.
Qed.

Lemma border_pixel_inside (b : grid) (w h : Z) (c : point) :
  mask_ok b w h → border_pixel b c → 1 ≤ c.1 < w - 1 ∧ 1 ≤ c.2 < h - 1.
Proof.
  intros [_ Hm] (Hx & Hy & Hc). destruct (Hm _ _ _ Hx Hy Hc) as [|(_ & ? & ?)]; done.
Qed.

Lemma advance_spec (b : grid) (x y : state) :
  advance b x = Some y →
  ∃ k, first_hit (hits b x.1) (Py.range (0 + x.2) (8 + x.2)) = Some k ∧
       0 ≤ k < 8 ∧
       neighbors x.1.1 x.1.2 !! Z.to_nat k = Some y.1 ∧
       y.2 = heading_to k ∧
       cell b y.1.1 y.1.2 = Some 1.
Proof.
  unfold advance. intros Hy.
  destruct (first_hit _ _) as [k|] eqn:Hk; [|done]. simpl in Hy.
  destruct (neighbors _ _ !! _) as [n|] eqn:Hn; [|done]. injection Hy as <-.
  apply first_hit_spec in Hk as Hk'. destruct Hk' as [Hk8 Hbit].
  exists k. split; [done|]. split; [done|]. split; [done|]. split; [done|].
  rewrite (bit_hits b x.1 n k) in Hbit by (by rewrite Z.mod_small).
  by apply bool_decide_eq_true in Hbit.
Qed.

(** One pass through the loop body, on states. *)
Lemma walk_step_advance (b : grid) (w h : Z) (start : point) (wk : walker) :
  mask_ok b w h → border_pixel b (cur wk) →
  walk_step b start wk =
    match advance b (state_of wk) with
    | Some y => Ok {| cur := y.1; p_angle := y.2;
                      vertices := vertices wk ++ [cur wk];
                      closed := bool_decide (y.1 = start) |}
    | None => Raise StuckInLoop
    end.
Proof.
  intros Hm Hon. destruct (border_pixel_inside b w h _ Hm Hon) as [Hx Hy].
  unfold walk_step, advance, state_of. destruct (cur wk) as [cx cy] eqn:Hcur.
  rewrite (sweep_first_hit b w h (cx, cy)) by (done || apply Hm). rewrite ret_bind.
  cbn [fst snd].
  destruct (first_hit _ _) as [k|] eqn:Hk; simpl.
  - apply first_hit_spec in Hk as [Hk8 _].
    destruct (neighbor_at (cx, cy) k Hk8) as [[nx ny] Hn]. simpl in Hn. rewrite Hn.
    destruct (neighbor_geometry (cx, cy) (nx, ny) k Hk8 Hn) as (Hne & Hat & _).
    simpl in Hat. simpl. rewrite decide_False by done. by rewrite Hat.
  - by rewrite decide_True.
Qed.

(** A step from a state with a clear left leads to a good state. *)
Lemma advance_good (b : grid) (x y : state) :
  -3 ≤ x.2 ≤ 4 → clear_left (hits b x.1) x.2 = true →
  cell b x.1.1 x.1.2 = Some 1 →
  advance b x = Some y →
  good b y ∧ origin y = x.1 ∧ y.1 ≠ x.1.
Proof.
  intros Ha Hc Hon Hy.
  destruct (advance_spec b x y Hy) as (k & Hk & Hk8 & Hn & Hh & Hcell).
  destruct (clear_left_kept _ _ _ (length_hits b x.1) Ha Hc Hk) as [Hbl Hl].
  destruct (neighbor_geometry x.1 y.1 k Hk8 Hn) as (Hne & _ & Hr & Hev & Ho & Hgbl & Hgl).
  destruct y as [n a']. simpl in *. subst a'.
  split; [|split; [done|done]].
  unfold good. cbn [fst snd].
  split; [done|]. split.
  - unfold clear_left. apply andb_true_intro. split.
    + apply negb_true_iff.
      destruct (neighbor_at n ((heading_to k - 1) `mod` 8)) as [m Hm];
        [apply Z.mod_pos_bound; lia|].
      rewrite (bit_hits b n m (heading_to k - 1)) by done. rewrite Hgbl in Hm.
      rewrite <- (bit_hits b x.1 m (if Z.even k then k + 6 else k + 7)) by done. done.
    + rewrite Hev. destruct (Z.even k) eqn:He; [|done]. simpl.
      apply negb_true_iff.
      destruct (neighbor_at n (heading_to k `mod` 8)) as [m Hm];
        [apply Z.mod_pos_bound; lia|].
      rewrite (bit_hits b n m (heading_to k)) by done.
      rewrite Hgl in Hm by done.
      rewrite <- (bit_hits b x.1 m (k + 7)) by done. by apply Hl.
  - assert (neighbors n.1 n.2 !! Z.to_nat ((heading_to k + 6) `mod` 8) = Some x.1) as Hback.
    { unfold origin in Ho. simpl in Ho.
      destruct (neighbor_at n ((heading_to k + 6) `mod` 8)) as [m Hm];
        [apply Z.mod_pos_bound; lia|].
      rewrite Hm in Ho. simpl in Ho. by rewrite Hm, Ho. }
    rewrite (bit_hits b n x.1 (heading_to k + 6)) by done. by apply bool_decide_eq_true.
Qed.

(** Two good states that step to the same state are the same. *)
Lemma advance_inj (b : grid) (x x' y : state) :
  good b x → good b x' → cell b x.1.1 x.1.2 = Some 1 → cell b x'.1.1 x'.1.2 = Some 1 →
  advance b x = Some y → advance b x' = Some y → x = x'.
Proof.
  intros (Ha & Hc & Hb) (Ha' & Hc' & Hb') Hon Hon' Hy Hy'.
  destruct (advance_good b x y Ha Hc Hon Hy) as (_ & Ho & _).
  destruct (advance_good b x' y Ha' Hc' Hon' Hy') as (_ & Ho' & _).
  destruct x as [c a], x' as [c' a']. simpl in *.
  assert (c' = c) as -> by congruence. f_equal.
  destruct (advance_spec b _ _ Hy) as (k & Hk & Hk8 & Hn & Hh & _).
  destruct (advance_spec b _ _ Hy') as (k' & Hk' & Hk8' & Hn' & Hh' & _).
  simpl in *.
  assert (k = k') as <-.
  { unfold heading_to in *. destruct (decide (k = 7)), (decide (k' = 7)); lia. }
  apply (first_hit_inj (hits b c)); try done. congruence.
Qed.

Lemma advance_some (b : grid) (x : state) : good b x → is_Some (advance b x).
Proof.
  intros (Ha & _ & Hb). unfold advance.
  destruct (first_hit_back _ _ (length_hits b x.1) Ha Hb) as [k Hk]. rewrite Hk. simpl.
  apply first_hit_spec in Hk as [Hk8 _].
  destruct (neighbor_at x.1 k Hk8) as [n ->]. by eexists.
Qed.

(** Every state of a trail but its first was stepped to from the one
    before it. *)
Lemma trail_pred (b : grid) (s : point) (l : list state) (y : state) :
  trail b s l → y ∈ l →
  origin y = s ∨ ∃ l1 x l2, l = l1 ++ y :: x :: l2 ∧ advance b x = Some y.
Proof.
  induction 1 as [x Hx|y0 x rest Hadv Htr IH].
  - intros ->%list_elem_of_singleton. by left.
  - intros [->|Hin]%elem_of_cons.
    + right. by exists [], x, rest.
    + destruct (IH Hin) as [|(l1 & x' & l2 & -> & Hx')]; [by left|].
      right. by exists (y0 :: l1), x', l2.
Qed.

(** The walk does not come back to a state it has been through, unless
    it is back at the start. *)
Lemma no_return (b : grid) (s : point) (x y : state) (rest : list state) :
  trail b s (x :: rest) → NoDup (x :: rest) →
  (∀ z, z ∈ x :: rest → good b z ∧ border_pixel b z.1) →
  x.1 ≠ s → advance b x = Some y → y ∉ x :: rest.
Proof.
  intros Htr Hnd Hall Hxs Hy Hin.
  destruct (Hall x) as [Hgx Hbx]; [by left|].
  destruct (advance_good b x y) as (_ & Ho & _); [apply Hgx|apply Hgx|apply Hbx|done|].
  destruct (trail_pred b s _ y Htr Hin) as [Hs|(l1 & x' & l2 & Hl & Hx')]; [congruence|].
  assert (x' ∈ x :: rest) as Hx'in.
  { rewrite Hl. apply elem_of_app. right. apply elem_of_cons. right. by left. }
  destruct (Hall x' Hx'in) as [Hgx' Hbx'].
  assert (x = x') as <-.
  { apply (advance_inj b x x' y); (done || apply Hbx || apply Hbx'). }
  apply NoDup_cons in Hnd as [Hnotin _]. apply Hnotin.
  destruct l1 as [|z l1]; simpl in Hl; injection Hl as -> ->.
  - by left.
  - apply elem_of_app. right. apply elem_of_cons. right. by left.
Qed.

(** There are eight states to a border pixel. *)
Lemma states_bound (b : grid) (l : list state) :
  NoDup l → (∀ z, z ∈ l → good b z ∧ border_pixel b z.1) →
  (length l ≤ 8 * border_count b)%nat.
Proof.
  intros Hnd Hall.
  assert (length (states b) = (8 * border_count b)%nat) as <-.
  { unfold states, border_count. rewrite length_prod. unfold headings.
    rewrite length_seqZ. lia. }
  apply submseteq_length, NoDup_submseteq; [done|].
  intros [c a] Hz. destruct (Hall _ Hz) as [(Ha & _) Hb]. simpl in *.
  apply list_elem_of_In, in_prod.
  - apply list_elem_of_In. by apply elem_of_ones_border_pixel.
  - apply list_elem_of_In. unfold headings. apply elem_of_seqZ. lia.
Qed.

Lemma walk_closed (fuel : nat) (b : grid) (s : point) (wk : walker) :
  closed wk = true → walk fuel b s wk = Some (Ok (vertices wk)).
Proof. intros Hc. destruct fuel; simpl; by rewrite Hc. Qed.

(** With a step of fuel for every state of the mask, the walk is back at
    the start before it runs out. *)
Lemma walk_ends (b : grid) (w h : Z) (s : point) (fuel : nat) (wk : walker)
    (rest : list state) :
  mask_ok b w h →
  walking b s wk → closed wk = false → cur wk ≠ s →
  trail b s (state_of wk :: rest) → NoDup (state_of wk :: rest) →
  (∀ z, z ∈ state_of wk :: rest → good b z ∧ border_pixel b z.1) →
  (8 * border_count b < fuel + length (state_of wk :: rest))%nat →
  ∃ r, walk fuel b s wk = Some r.
Proof.
  intros Hm. revert wk rest.
  induction fuel as [|fuel IH]; intros wk rest Hwk Hcl Hne Htr Hnd Hall Hfuel.
  - pose proof (states_bound b _ Hnd Hall). simpl in *. lia.
  - simpl. rewrite Hcl.
    destruct (Hall (state_of wk)) as [Hg Hb]; [by left|].
    rewrite (walk_step_advance b w h s wk Hm Hb).
    destruct (advance_some b _ Hg) as [y Hy]. rewrite Hy.
    set (wk' := {| cur := y.1; p_angle := y.2;
                   vertices := vertices wk ++ [cur wk];
                   closed := bool_decide (y.1 = s) |}).
    destruct (decide (y.1 = s)) as [Hys|Hys].
    { rewrite walk_closed; [eauto|]. simpl. by apply bool_decide_eq_true. }
    assert (walk_step b s wk = Ok wk') as Hstep.
    { by rewrite (walk_step_advance b w h s wk Hm Hb), Hy. }
    destruct (walk_step_spec b w h s wk Hm Hwk)
      as [(wk1 & Hstep1 & Hwk1 & _)|[Hraise _]]; [|congruence].
    assert (wk1 = wk') as -> by congruence.
    destruct (advance_good b (state_of wk) y) as (Hgy & _ & _);
      [apply Hg|apply Hg|apply Hb|done|].
    assert (state_of wk' = y) as Hst by (by destruct y).
    apply (IH wk' (state_of wk :: rest)); try done.
    + simpl. by apply bool_decide_eq_false.
    + rewrite Hst. by constructor.
    + rewrite Hst. apply NoDup_cons. split; [|done]. by eapply no_return.
    + rewrite Hst. intros z [->|Hz]%elem_of_cons; [|by apply Hall].
      split; [done|]. apply Hwk1.
    + simpl in *. lia.
Qed.

(** The rows above the start of the walk hold no border pixel. *)
Lemma find_start_above (b : grid) (s : point) (x y : Z) :
  find_start b 0 = Ok s → 0 ≤ y < s.2 → cell b x y ≠ Some 1.
Proof.
  intros Hs Hy.
  assert (∀ rows y0 (j : nat) row,
            find_start rows y0 = Ok s → rows !! j = Some row → y0 + Z.of_nat j < s.2 →
            existsb Py.truthy row = false) as Hgen.
  { induction rows as [|r rows IH]; intros y0 j row Hrun Hj Hlt; [done|].
    simpl in Hrun. destruct (existsb Py.truthy r) eqn:Hany.
    - apply bind_ok in Hrun as (sx & _ & [= <-]). simpl in Hlt. lia.
    - destruct j as [|j]; [by injection Hj as <-|].
      apply (IH (y0 + 1) j row); [done|done|lia]. }
  unfold cell. destruct (b !! Z.to_nat y) as [row|] eqn:Hrow; [|done]. simpl.
  intros Hone.
  assert (existsb Py.truthy row = false) as Hnone.
  { apply (Hgen b 0 (Z.to_nat y) row); [done|done|lia]. }
  apply not_true_iff_false in Hnone. apply Hnone.
  apply existsb_exists. exists 1. split; [|done].
  apply list_elem_of_In. by eapply list_elem_of_lookup_2.
Qed.

(** [vectorize] ends: with more fuel than eight steps to a border pixel,
    it raises or returns. *)
Lemma vectorize_ends (b : grid) (w h : Z) (fuel : nat) :
  mask_ok b w h → (8 * border_count b < fuel)%nat →
  ∃ r, vectorize fuel b = Some r.
Proof.
  intros Hm Hfuel. unfold vectorize.
  destruct (find_start_spec b w h Hm) as [->|(s & Hs & Hx & Hy & Hc)]; [eauto|].
  rewrite Hs. fold (at_start s).
  assert (border_pixel b s) as Hbs by done.
  destruct (border_pixel_inside b w h s Hm Hbs) as [Hsx Hsy].
  destruct fuel as [|fuel]; [lia|]. simpl.
  rewrite (walk_step_advance b w h s (at_start s) Hm Hbs).
  change (state_of (at_start s)) with (s, 0).
  destruct (advance b (s, 0)) as [y|] eqn:Hy0; [|eauto].
  assert (clear_left (hits b s) 0 = true) as Hclear.
  { unfold clear_left. simpl Z.even. simpl negb at 3. rewrite orb_false_l.
    rewrite (bit_hits b s (s.1 - 1, s.2 - 1) (0 - 1)) by done.
    rewrite (bit_hits b s (s.1, s.2 - 1) 0) by done.
    rewrite !bool_decide_eq_false_2; [done| |]; simpl;
      apply (find_start_above b s); (done || lia). }
  destruct (advance_good b (s, 0) y) as (Hgy & Ho & Hne); [simpl; lia|done|done|done|].
  simpl in Ho, Hne.
  set (wk' := {| cur := y.1; p_angle := y.2;
                 vertices := vertices (at_start s) ++ [cur (at_start s)];
                 closed := bool_decide (y.1 = s) |}).
  destruct (walk_step_spec b w h s (at_start s) Hm (walking_at_start b s Hx Hy Hc))
    as [(wk1 & Hstep1 & Hwk1 & _)|[Hraise _]].
  2:{ rewrite (walk_step_advance b w h s (at_start s) Hm Hbs) in Hraise.
      change (state_of (at_start s)) with (s, 0) in Hraise. by rewrite Hy0 in Hraise. }
  rewrite (walk_step_advance b w h s (at_start s) Hm Hbs) in Hstep1.
  change (state_of (at_start s)) with (s, 0) in Hstep1. rewrite Hy0 in Hstep1.
  injection Hstep1 as <-.
  assert (state_of wk' = y) as Hst by (by destruct y).
  apply (walk_ends b w h s fuel wk' []); try done.
  - simpl. by apply bool_decide_eq_false.
  - rewrite Hst. by constructor.
  - rewrite Hst. apply NoDup_singleton.
  - rewrite Hst. intros z ->%list_elem_of_singleton. split; [done|]. apply Hwk1.
  - simpl. lia.
Qed.

(** More fuel does not change what the walk returns. *)
Lemma walk_fuel (fuel fuel' : nat) (b : grid) (s : point) (wk : walker)
    (r : result (list point)) :
  (fuel ≤ fuel')%nat → walk fuel b s wk = Some r → walk fuel' b s wk = Some r.
Proof.
  revert fuel' wk. induction fuel as [|fuel IH]; intros fuel' wk Hle.
  - simpl. destruct (closed wk) eqn:Hc; [|done].
    intros [= <-]. by apply walk_closed.
  - destruct fuel' as [|fuel']; [lia|]. simpl.
    destruct (closed wk); [done|].
    destruct (walk_step b s wk) as [wk'|e]; [|done].
    apply IH. lia.
Qed.

Lemma vectorize_fuel (fuel fuel' : nat) (b : grid) (r : result (list point)) :
  (fuel ≤ fuel')%nat → vectorize fuel b = Some r → vectorize fuel' b = Some r.
Proof.
  intros Hle. unfold vectorize.
  destruct (find_start b 0) as [s|e]; [|done]. by apply walk_fuel.
Qed.

(** What [vectorize] returns does not depend on the fuel. *)
Lemma vectorize_agree (fuel fuel' : nat) (b : grid) (r r' : result (list point)) :
  vectorize fuel b = Some r → vectorize fuel' b = Some r' → r = r'.
Proof.
  intros Hr Hr'.
  apply (vectorize_fuel _ (fuel `max` fuel')) in Hr; [|lia].
  apply (vectorize_fuel _ (fuel `max` fuel')) in Hr'; [|lia].
  congruence.
Qed.

(** Each step of the walk adds one vertex. *)
Lemma walk_length (fuel : nat) (b : grid) (s : point) (wk : walker) (vs : list point) :
  walk fuel b s wk = Some (Ok vs) → (length vs ≤ length (vertices wk) + fuel)%nat.
Proof.
  revert wk. induction fuel as [|fuel IH]; intros wk; simpl.
  - destruct (closed wk); [|done]. intros [= <-]. lia.
  - destruct (closed wk); [intros [= <-]; lia|].
    unfold walk_step. destruct (cur wk) as [cx cy].
    destruct (sweep _ _ _) as [found|e]; [|done]. rewrite ret_bind.
    destruct found as [[nx ny]|]; cbn [cur];
      (destruct (decide _); [done|]); intros Hrun; apply IH in Hrun;
      simpl in Hrun; rewrite ?length_app in Hrun; simpl in Hrun; lia.
Qed.

Lemma vectorize_length (fuel : nat) (b : grid) (vs : list point) :
  vectorize fuel b = Some (Ok vs) → (length vs ≤ S fuel)%nat.
Proof.
  unfold vectorize. destruct (find_start b 0) as [s|e]; [|done].
  intros Hrun. apply walk_length in Hrun. simpl in Hrun. lia.
Qed.


Lemma trace_raster (v : Vector) (b : grid) (fuel : nat) :
  find_border_raster v = Ok b → trace fuel v = vectorize fuel b.
Proof. intros Hb. unfold trace. by rewrite Hb. Qed.

(** C4, as amended: on an image of [height] rows of [width] pixels whose
    border mask is not empty and whose start pixel [s], the first border
    pixel in row-major order, has a border pixel among its eight
    neighbours, [vectorize] ends with the walk back at [s]: it returns as
    soon as it has fuel for eight steps to a border pixel, and returns the
    same vertex sequence whatever the fuel.  That sequence is [s] followed
    by the pixels the walk left, one per step and in order.  It starts
    with [s] twice; each of its vertices is a pixel of the border mask;
    from the second vertex on, every vertex is one of the eight neighbours
    of the one before it, and [s] is a neighbour of the last one.  Its
    last vertex is the pixel before the start, not the start; it has at
    least three vertices and at most two more than eight to a border
    pixel. *)
Theorem vectorize_returns_closed_walk (v : Vector) (b : grid) (s : point) :
  well_formed v →
  find_border_raster v = Ok b →
  find_start b 0 = Ok s →
  ¬ isolated b s →
  ∃ path,
    (∀ fuel, (8 * border_count b < fuel)%nat → trace fuel v = Some (Ok (s :: path))) ∧
    (∀ fuel r, trace fuel v = Some r → r = Ok (s :: path)) ∧
    head path = Some s ∧
    chain (path ++ [s]) ∧
    Forall (border_pixel b) (s :: path) ∧
    list.last path ≠ Some s ∧
    (2 ≤ length path ≤ 8 * border_count b + 1)%nat.
Proof.
  intros Hwf Hb Hs Hnot.
  destruct (find_border_raster_mask v Hwf) as (b' & Hb' & Hm).
  assert (b' = b) as -> by congruence.
  destruct (vectorize_ends b _ _ (S (8 * border_count b)) Hm) as [r Hr]; [lia|].
  pose proof (vectorize_outcomes b _ _ (S (8 * border_count b)) Hm) as Hout.
  rewrite Hr in Hout. destruct r as [vs|e].
  2:{ destruct Hout as [[_ Hno]|[_ (s' & Hs' & Hiso)]]; [congruence|].
      assert (s' = s) as -> by congruence. done. }
  destruct Hout as (s' & wk & Hs' & _ & -> & [Hon (path & Hv & Hhd & Hch & Hall) Hcl] & Hc).
  assert (s' = s) as -> by congruence.
  destruct (Hcl Hc) as [Hcur Hlen]. rewrite Hcur in *.
  assert (head path = Some s) as Hhead.
  { rewrite Hv in Hlen. destruct path; simpl in *; [lia|done]. }
  assert (∀ x, list.last path = Some x → x ≠ s) as Hlast.
  { intros x Hx ->. apply last_Some in Hx as [l ->].
    assert (adjacent s s) as Hadj.
    { apply (Hch (length l) s s).
      - rewrite lookup_app_l by (rewrite length_app; simpl; lia).
        by rewrite list_lookup_middle.
      - rewrite lookup_app_r by (rewrite length_app; simpl; lia).
        rewrite length_app. simpl.
        by replace (S (length l) - (length l + 1))%nat with 0%nat by lia. }
    by apply adjacent_near in Hadj as (_ & _ & ?). }
  exists path. rewrite Hv in *.
  split; [|split; [|split; [done|split; [done|split; [by constructor|split]]]]].
  - intros fuel Hfuel. rewrite (trace_raster v b fuel Hb).
    by apply (vectorize_fuel (S (8 * border_count b))); [lia|].
  - intros fuel r Hrun. rewrite (trace_raster v b fuel Hb) in Hrun.
    by apply (vectorize_agree _ _ _ _ _ Hrun Hr).
  - intros Hx. by apply (Hlast s).
  - split.
    + destruct path as [|x [|y path]]; simpl in *; [done| |lia].
      injection Hhead as ->. by destruct (Hlast s).
    + apply vectorize_length in Hr. simpl in Hr. lia.
Qed.

Lemma vectorize_returns_closed_walk_witness :
  ∃ path,
    (∀ fuel, (8 * border_count (pixels square2) < fuel)%nat →
       trace fuel square2 = Some (Ok ((1, 1) :: path))) ∧
    (∀ fuel r, trace fuel square2 = Some r → r = Ok ((1, 1) :: path)) ∧
    head path = Some (1, 1) ∧
    chain (path ++ [(1, 1)]) ∧
    Forall (border_pixel (pixels square2)) ((1, 1) :: path) ∧
    list.last path ≠ Some (1, 1) ∧
    (2 ≤ length path ≤ 8 * border_count (pixels square2) + 1)%nat.
Proof.
  apply (vectorize_returns_closed_walk square2 (pixels square2) (1, 1)).
  - split; [reflexivity|]. repeat constructor.
  - reflexivity.
  - reflexivity.
  - intros Hiso. apply (Hiso (2, 1)); [|reflexivity].
    unfold adjacent. simpl. apply elem_of_cons. right. apply elem_of_cons. right.
    apply elem_of_cons. by left.
Defined.

(** C4, as stated, fails on the smallest regions.  The walk around the
    four border pixels of [square2] returns five vertices, the first one
    twice, and its last vertex is not the first.  The walk along the
    three border pixels of [bar3] goes to the end of the bar and back: it
    returns five vertices, the pixel in the middle twice.  The single
    pixel of [lone_pixel] has no neighbour to step to, and the walk does
    not come back to its start. *)
Lemma walk_vertices_are_not_the_border_pixels :
  (well_formed square2 ∧
   ∃ b vs, find_border_raster square2 = Ok b ∧
           trace 4 square2 = Some (Ok vs) ∧
           border_count b = 4%nat ∧
           length vs = 5%nat ∧
           head vs = Some (1, 1) ∧
           list.last vs = Some (1, 2)) ∧
  (well_formed bar3 ∧
   ∃ b, find_border_raster bar3 = Ok b ∧
        trace 4 bar3 = Some (Ok [(1, 1); (1, 1); (2, 1); (3, 1); (2, 1)]) ∧
        border_count b = 3%nat) ∧
  (well_formed lone_pixel ∧
   trace 1 lone_pixel = Some (Raise StuckInLoop)).
Proof.
  split; [|split].
  - split; [split; [reflexivity|repeat constructor]|].
    do 2 eexists. repeat split; reflexivity.
  - split; [split; [reflexivity|repeat constructor]|].
    eexists. repeat split; reflexivity.
  - split; [split; [reflexivity|repeat constructor]|]. reflexivity.
Qed.

(** A single pixel has no neighbour to step to. *)
Example lone_pixel_is_stuck :
  trace 1 lone_pixel = Some (Raise StuckInLoop).
Proof. reflexivity. Qed.

(** C5, as amended: on an image of [height] rows of [width] pixels
    [vectorize] ends, with one outcome whatever the fuel: it has ended as
    soon as it has fuel for eight steps to a border pixel, so it does not
    loop forever.  The walk never reads outside the mask: the only
    exceptions [vectorize] can raise are "no border to walk" and "stuck".
    It raises "stuck" exactly when the start pixel has no border pixel
    among its eight neighbours, and then on its first step. *)
Theorem vectorize_stuck_iff_start_isolated (v : Vector) :
  well_formed v →
  ∃ b r,
    find_border_raster v = Ok b ∧
    (∀ fuel, (8 * border_count b < fuel)%nat → trace fuel v = Some r) ∧
    (∀ fuel r', trace fuel v = Some r' → r' = r) ∧
    (∀ e, r = Raise e → e = NoBorderToWalk ∨ e = StuckInLoop) ∧
    (r = Raise StuckInLoop ↔ ∃ s, find_start b 0 = Ok s ∧ isolated b s) ∧
    (r = Raise StuckInLoop → ∀ fuel, trace (S fuel) v = Some (Raise StuckInLoop)).
Proof.
  intros Hwf.
  destruct (find_border_raster_mask v Hwf) as (b & Hb & Hm).
  destruct (vectorize_ends b _ _ (S (8 * border_count b)) Hm) as [r Hr]; [lia|].
  pose proof (vectorize_outcomes b _ _ (S (8 * border_count b)) Hm) as Hout.
  rewrite Hr in Hout.
  exists b, r. split; [done|].
  assert (r = Raise StuckInLoop → ∃ s, find_start b 0 = Ok s ∧ isolated b s) as Hstuck.
  { intros ->. by destruct Hout as [[[=] _]|[_ Hs]]. }
  split; [|split; [|split; [|split; [split|]]]].
  - intros fuel Hfuel. rewrite (trace_raster v b fuel Hb).
    by apply (vectorize_fuel (S (8 * border_count b))); [lia|].
  - intros fuel r' Hrun. rewrite (trace_raster v b fuel Hb) in Hrun.
    by apply (vectorize_agree _ _ _ _ _ Hrun Hr).
  - intros e ->. destruct Hout as [[-> _]|[-> _]]; [by left|by right].
  - done.
  - intros (s & Hs & Hiso).
    pose proof (vectorize_stuck b _ _ (8 * border_count b) s Hm Hs Hiso). congruence.
  - intros Hr' fuel. destruct (Hstuck Hr') as (s & Hs & Hiso).
    rewrite (trace_raster v b _ Hb). by eapply vectorize_stuck.
Qed.

Lemma vectorize_stuck_iff_start_isolated_witness :
  ∃ b r,
    find_border_raster lone_pixel = Ok b ∧
    (∀ fuel, (8 * border_count b < fuel)%nat → trace fuel lone_pixel = Some r) ∧
    (∀ fuel r', trace fuel lone_pixel = Some r' → r' = r) ∧
    (∀ e, r = Raise e → e = NoBorderToWalk ∨ e = StuckInLoop) ∧
    (r = Raise StuckInLoop ↔ ∃ s, find_start b 0 = Ok s ∧ isolated b s) ∧
    (r = Raise StuckInLoop → ∀ fuel, trace (S fuel) lone_pixel = Some (Raise StuckInLoop)).
Proof.
  apply (vectorize_stuck_iff_start_isolated lone_pixel).
  split; [reflexivity|]. repeat constructor.
Defined.

(** C5, as stated, fails: the foreground of [bar_from_top] has pixels in
    row 0 and its border mask has four pixels, yet the walk closes and
    [vectorize] returns. *)
Lemma touching_the_image_border_is_not_stuck :
  well_formed bar_from_top ∧
  foreground bar_from_top 1 0 ∧
  (∃ b, find_border_raster bar_from_top = Ok b ∧ border_count b = 4%nat) ∧
  trace 4 bar_from_top = Some (Ok [(1, 1); (1, 1); (2, 1); (2, 2); (1, 2)]).
Proof.
  split; [split; [reflexivity|repeat constructor]|].
  split; [exists 1; split; [reflexivity|lia]|].
  split; [eexists; split; reflexivity|reflexivity].
Qed.

(** ** Merging close points *)

Lemma pop_in_range {A} (l : list A) (i : Z) :
  0 ≤ i < Py.len l → Py.pop l i = Ok (delete (Z.to_nat i) l).
Proof. intros Hi. unfold Py.pop, Py.norm_index. by rewrite decide_True. Qed.

Section MergeFacts.

Context {V : Type} `{EqDecision V}.
Variable distance : V → V → Q.
Variable midpoint_along_path : list V → V → V → V.
Variable threshold : Q.

#[local] Abbreviation step := (merge_step distance midpoint_along_path threshold).
#[local] Abbreviation loop fuel :=
  (merge_loop distance midpoint_along_path fuel threshold).
#[local] Abbreviation merge fuel vs :=
  (merge_close_points distance midpoint_along_path fuel vs threshold).
#[local] Abbreviation merged := (merged_vertex midpoint_along_path).

Lemma next_index_lt (vs : list V) (i : nat) :
  (i < length vs)%nat → (next_index vs i < length vs)%nat.
Proof. intros Hi. unfold next_index. apply Nat.mod_upper_bound. lia. Qed.

Lemma next_index_cases (vs : list V) (i : nat) :
  (i < length vs)%nat →
  (S i < length vs)%nat ∧ next_index vs i = S i ∨
  S i = length vs ∧ next_index vs i = 0%nat.
Proof.
  intros Hi. unfold next_index.
  destruct (decide (S i < length vs)%nat) as [Hlt|Hge].
  - left. split; [done|]. by apply Nat.mod_small.
  - right. assert (S i = length vs) as Heq by lia. split; [done|].
    rewrite Heq. apply Nat.Div0.mod_same.
Qed.

(** One pass through the loop body at a position of the list. *)
Lemma merge_step_spec (vs : list V) (i : nat) (vi vj : V) :
  vs !! i = Some vi → vs !! next_index vs i = Some vj →
  step vs (Z.of_nat i) =
    Ok (if Qle_bool (distance vi vj) threshold
        then (delete (next_index vs i) (<[i := merged vs vi vj]> vs), Z.of_nat i)
        else (vs, Z.of_nat i + 1)).
Proof.
  intros Hi Hj. pose proof (lookup_lt_Some _ _ _ Hi) as Hlt.
  unfold merge_step, Py.modulo, Py.len.
  rewrite decide_False by lia. rewrite ret_bind.
  rewrite decide_False by lia. rewrite ret_bind.
  rewrite Z.mod_small by lia.
  assert ((Z.of_nat i + 1) `mod` Z.of_nat (length vs) = Z.of_nat (next_index vs i)) as Hn.
  { unfold next_index. rewrite Nat2Z.inj_mod. f_equal. lia. }
  rewrite Hn.
  rewrite (get_lookup vs (Z.of_nat i) vi) by (lia || (rewrite Nat2Z.id; done)).
  rewrite ret_bind. cbn beta.
  rewrite (get_lookup vs (Z.of_nat (next_index vs i)) vj)
    by (lia || (rewrite Nat2Z.id; done)).
  rewrite ret_bind. cbn beta.
  destruct (Qle_bool (distance vi vj) threshold); [|done].
  rewrite set_in_range by (unfold Py.len; lia). rewrite ret_bind.
  pose proof (next_index_lt vs i Hlt).
  rewrite pop_in_range by (unfold Py.len; rewrite length_insert; lia).
  rewrite ret_bind, !Nat2Z.id. done.
Qed.

(** The first pass, entered with [i = -len(vs)], is the pass at 0. *)
Lemma merge_step_first (vs : list V) :
  vs ≠ [] → step vs (- Py.len vs) = step vs 0.
Proof.
  intros Hne. unfold merge_step, Py.modulo.
  assert (Py.len vs ≠ 0) by (unfold Py.len; destruct vs; simpl; [done|lia]).
  rewrite !decide_False by done. rewrite !ret_bind.
  replace (- Py.len vs) with (0 + -1 * Py.len vs) by lia.
  by rewrite Z.mod_add.
Qed.

Lemma merge_loop_unfold (fuel : nat) (vs : list V) (i : Z) :
  loop fuel vs i =
    if decide (i < Py.len vs) then
      match fuel with
      | O => None
      | S fuel' =>
          match step vs i with
          | Raise e => Some (Raise e)
          | Ok (vs', i') => loop fuel' vs' i'
          end
      end
    else Some (Ok vs).
Proof. by destruct fuel. Qed.

Lemma merge_loop_first (fuel : nat) (vs : list V) :
  merge fuel vs = loop fuel vs 0.
Proof.
  unfold merge_close_points. rewrite !merge_loop_unfold.
  destruct vs as [|v vs]; [done|].
  rewrite !decide_True by (unfold Py.len; simpl; lia).
  by rewrite (merge_step_first (v :: vs)).
Qed.

(** The loop body never raises, and the loop ends: a pass either shortens
    the list or moves on to the next position. *)
Lemma merge_loop_total (fuel : nat) (vs : list V) (i : nat) :
  (2 * length vs ≤ fuel + i)%nat →
  ∃ r, loop fuel vs (Z.of_nat i) = Some (Ok r).
Proof.
  revert vs i. induction fuel as [|fuel IH]; intros vs i Hfuel.
  - rewrite merge_loop_unfold, decide_False by (unfold Py.len; lia). eauto.
  - rewrite merge_loop_unfold.
    destruct (decide (Z.of_nat i < Py.len vs)) as [Hlt|Hge]; [|eauto].
    unfold Py.len in Hlt.
    destruct (lookup_lt_is_Some_2 vs i) as [vi Hi]; [lia|].
    destruct (lookup_lt_is_Some_2 vs (next_index vs i)) as [vj Hj];
      [apply next_index_lt; lia|].
    rewrite (merge_step_spec vs i vi vj Hi Hj).
    destruct (Qle_bool (distance vi vj) threshold).
    + apply IH. rewrite length_delete by
        (apply lookup_lt_is_Some_2; rewrite length_insert; apply next_index_lt; lia).
      rewrite length_insert. lia.
    + replace (Z.of_nat i + 1) with (Z.of_nat (S i)) by lia. apply IH. lia.
Qed.

(** More fuel does not change a result. *)
Lemma merge_loop_fuel (fuel fuel' : nat) (vs : list V) (i : Z) (r : result (list V)) :
  (fuel ≤ fuel')%nat →
  loop fuel vs i = Some r → loop fuel' vs i = Some r.
Proof.
  revert fuel' vs i. induction fuel as [|fuel IH]; intros fuel' vs i Hle;
    rewrite (merge_loop_unfold fuel'), merge_loop_unfold.
  - by destruct (decide (i < Py.len vs)).
  - destruct fuel' as [|fuel']; [lia|].
    destruct (decide (i < Py.len vs)); [|done].
    destruct (step vs i) as [[vs' i']|e]; [|done].
    apply IH. lia.
Qed.

(** [merge_close_points] returns for every list. *)
Lemma merge_close_points_total (vs : list V) :
  ∃ r, ∀ fuel, (2 * length vs ≤ fuel)%nat → merge fuel vs = Some (Ok r).
Proof.
  destruct (merge_loop_total (2 * length vs) vs 0) as [r Hr]; [lia|].
  exists r. intros fuel Hfuel. rewrite merge_loop_first.
  by eapply merge_loop_fuel.
Qed.


(** *** Pairs left apart *)

Lemma close_iff (a b : V) :
  Qle_bool (distance a b) threshold = true ↔ close distance threshold a b.
Proof. apply Qle_bool_iff. Qed.

Lemma merged_of_pair (vs : list V) (i : nat) (a b : V) :
  midpoint_within_pair midpoint_along_path →
  NoDup vs → vs !! i = Some a → vs !! next_index vs i = Some b →
  merged vs a b = a.
Proof.
  intros Hmid Hnd Ha Hb. unfold merged_vertex.
  destruct (decide (midpoint_along_path vs a b = b)) as [|Hne]; [done|].
  by destruct (Hmid vs i a b Hnd Ha Hb).
Qed.

Lemma NoDup_delete (vs : list V) (j : nat) : NoDup vs → NoDup (delete j vs).
Proof. intros Hnd. eapply sublist_NoDup; [done|apply sublist_delete]. Qed.

(** When merging only ever drops the later point of a pair, the pairs
    the loop has passed stay apart. *)
Lemma merge_loop_apart (fuel : nat) (vs : list V) (i : nat) (r : list V) :
  midpoint_within_pair midpoint_along_path →
  NoDup vs → (i ≤ length vs)%nat →
  apart_before distance threshold i vs →
  loop fuel vs (Z.of_nat i) = Some (Ok r) →
  apart distance threshold r.
Proof.
  intros Hmid. revert vs i.
  induction fuel as [|fuel IH]; intros vs i Hnd Hi Hpre; rewrite merge_loop_unfold.
  - destruct (decide (Z.of_nat i < Py.len vs)) as [|Hge]; [done|].
    intros [= <-]. intros k a b Ha Hb. apply (Hpre k a b); [|done..].
    apply lookup_lt_Some in Hb. unfold Py.len in Hge. lia.
  - destruct (decide (Z.of_nat i < Py.len vs)) as [Hlt|Hge].
    2:{ intros [= <-]. intros k a b Ha Hb. apply (Hpre k a b); [|done..].
        apply lookup_lt_Some in Hb. unfold Py.len in Hge. lia. }
    unfold Py.len in Hlt.
    destruct (lookup_lt_is_Some_2 vs i) as [vi Hvi]; [lia|].
    destruct (lookup_lt_is_Some_2 vs (next_index vs i)) as [vj Hvj];
      [apply next_index_lt; lia|].
    rewrite (merge_step_spec vs i vi vj Hvi Hvj).
    destruct (Qle_bool (distance vi vj) threshold) eqn:Hclose.
    + rewrite (merged_of_pair vs i vi vj) by done.
      rewrite list_insert_id by done.
      apply IH; [by apply NoDup_delete| |].
      * rewrite length_delete by (apply lookup_lt_is_Some_2, next_index_lt; lia). lia.
      * intros k a b Hk Ha Hb.
        destruct (next_index_cases vs i) as [[Hs Hn]|[Hs Hn]]; [lia| |]; rewrite Hn in *.
        -- rewrite list_lookup_delete_lt in Ha, Hb by lia. by apply (Hpre k a b).
        -- destruct vs as [|v vs]; [done|]. simpl in Ha, Hb.
           apply (Hpre (S k) a b); [|done..].
           apply lookup_lt_Some in Hb. simpl in Hs. lia.
    + replace (Z.of_nat i + 1) with (Z.of_nat (S i)) by lia.
      apply IH; [done|lia|].
      intros k a b Hk Ha Hb.
      destruct (decide (k = i)) as [->|Hne]; [|apply (Hpre k a b); (done || lia)].
      destruct (next_index_cases vs i) as [[Hs Hn]|[Hs Hn]]; [lia| |].
      * rewrite Hn in Hvj. assert (a = vi) as -> by congruence.
        assert (b = vj) as -> by congruence.
        rewrite <- close_iff. by rewrite Hclose.
      * apply lookup_lt_Some in Hb. lia.
Qed.

(** *** The pair of the last and the first vertex *)

(** The loop walks past the pairs that are apart. *)
Lemma merge_loop_skip (fuel d : nat) (vs : list V) (i : nat) :
  apart distance threshold vs → (S (i + d) = length vs)%nat →
  loop (d + fuel)%nat vs (Z.of_nat i) = loop fuel vs (Z.of_nat (i + d)%nat).
Proof.
  intros Hap. revert i. induction d as [|d IH]; intros i Hlen.
  - by rewrite Nat.add_0_r.
  - rewrite merge_loop_unfold. rewrite decide_True by (unfold Py.len; lia).
    simpl Nat.add.
    destruct (lookup_lt_is_Some_2 vs i) as [vi Hvi]; [lia|].
    destruct (lookup_lt_is_Some_2 vs (S i)) as [vj Hvj]; [lia|].
    destruct (next_index_cases vs i) as [[Hs Hn]|[Hs Hn]]; [lia| |lia].
    rewrite (merge_step_spec vs i vi vj) by (done || by rewrite Hn).
    replace (Qle_bool (distance vi vj) threshold) with false.
    + replace (Z.of_nat i + 1) with (Z.of_nat (S i)) by lia.
      rewrite IH by lia. f_equal. lia.
    + symmetry. apply not_true_is_false. rewrite close_iff. by apply (Hap i).
Qed.

Lemma merge_wraps (fuel : nat) (a z : V) (l : list V) :
  apart distance threshold (a :: l ++ [z]) →
  close distance threshold z a →
  (length (a :: l ++ [z]) ≤ fuel)%nat →
  merge fuel (a :: l ++ [z]) = Some (Ok (l ++ [merged (a :: l ++ [z]) z a])).
Proof.
  intros Hap Hclose Hfuel. set (vs := a :: l ++ [z]) in *.
  assert (length vs = S (S (length l))) as Hlen.
  { unfold vs. simpl. rewrite length_app. simpl. lia. }
  rewrite merge_loop_first.
  replace fuel with (S (length l) + (fuel - S (length l)))%nat by lia.
  rewrite (merge_loop_skip _ _ vs 0) by (done || lia).
  destruct (fuel - S (length l))%nat as [|fuel'] eqn:Hf; [lia|].
  rewrite merge_loop_unfold. rewrite decide_True by (unfold Py.len; lia).
  assert (vs !! (0 + S (length l))%nat = Some z) as Hz.
  { unfold vs. simpl. rewrite lookup_app_r by lia. by rewrite Nat.sub_diag. }
  destruct (next_index_cases vs (0 + S (length l))) as [[Hs Hn]|[Hs Hn]]; [lia|lia|].
  rewrite (merge_step_spec vs _ z a) by (done || by rewrite Hn).
  apply close_iff in Hclose. rewrite Hclose, Hn.
  rewrite merge_loop_unfold. rewrite decide_False.
  - do 2 f_equal. unfold vs. simpl. f_equal.
    rewrite insert_app_r_alt by lia. by rewrite Nat.sub_diag.
  - unfold Py.len. rewrite length_delete, length_insert;
      [lia|apply lookup_lt_is_Some_2; rewrite length_insert; lia].
Qed.

End MergeFacts.

(** *** The midpoint along a path of pixels *)

Lemma rotate_to_split (a : point) (seen l1 l2 : list point) :
  a ∉ l1 →
  rotate_to a seen (l1 ++ a :: l2) = (a :: l2) ++ reverse seen ++ l1.
Proof.
  revert seen. induction l1 as [|v l1 IH]; intros seen Hnotin; simpl.
  - rewrite decide_True by done. by rewrite app_nil_r.
  - apply not_elem_of_cons in Hnotin as [Hne Hnotin].
    rewrite decide_False by done. rewrite IH by done.
    rewrite reverse_cons. by rewrite <- !app_assoc.
Qed.

Lemma vertex_at_single (half walked : Q) (a b : point) :
  vertex_at half walked a [b] = b.
Proof. simpl. by destruct (Qle_bool _ _). Qed.

(** Between two neighbours on a path without repeated vertices, the model
    of [util.midpoint_along_path] returns one of the two. *)
Lemma midpoint_along_path_within_pair : midpoint_within_pair midpoint_along_path.
Proof.
  intros vs i a b Hnd Ha Hb.
  pose proof (lookup_lt_Some _ _ _ Ha) as Hi.
  rewrite <- (take_drop_middle vs i a Ha) in Hnd.
  apply list.NoDup_app in Hnd as (_ & Hnotin & _).
  assert (a ∉ take i vs) as Hfresh.
  { intros Hin. apply (Hnotin a Hin). by left. }
  assert (rotate_to a [] vs = a :: drop (S i) vs ++ take i vs) as Hrot.
  { transitivity (rotate_to a [] (take i vs ++ a :: drop (S i) vs)).
    - by rewrite take_drop_middle.
    - by rewrite rotate_to_split. }
  unfold midpoint_along_path. rewrite Hrot. simpl.
  destruct (decide (a = b)) as [|Hne]; [by left|]. right.
  assert (∃ t, drop (S i) vs ++ take i vs = b :: t) as [t ->].
  { destruct (next_index_cases vs i Hi) as [[Hs Hn]|[Hs Hn]]; rewrite Hn in Hb.
    - rewrite (drop_S vs b (S i)) by done. eauto.
    - rewrite drop_ge by lia. simpl.
      destruct i as [|i]; [congruence|].
      destruct vs as [|v vs]; [done|]. simpl in *. injection Hb as ->. eauto. }
  simpl. rewrite decide_True by done. apply vertex_at_single.
Qed.

Lemma apartb_apart {V : Type} (distance : V → V → Q) (threshold : Q) (vs : list V) :
  apartb distance threshold vs = true → apart distance threshold vs.
Proof.
  induction vs as [|a vs IH]; intros Hb k x y Hx Hy; [done|].
  destruct vs as [|b vs]; [by destruct k|].
  simpl in Hb. apply andb_prop in Hb as [Hab Hrest].
  destruct k as [|k].
  - simpl in Hx, Hy. injection Hx as <-. injection Hy as <-.
    unfold close. rewrite <- Qle_bool_iff. by destruct (Qle_bool _ _).
  - by apply (IH Hrest k).
Qed.

(** C9, as amended: [merge_close_points] returns for every list of
    vertices and every threshold, without raising.  A pass of its loop at
    position [i] compares vertex [i] with the next one (the first one after
    the last): when they are within the threshold, vertex [i] becomes their
    midpoint along the path, or stays when that midpoint is the later
    vertex, and the later vertex is removed; otherwise [i] moves on.  When
    the path visits no vertex twice and the midpoint along the path of a
    pair the loop merges is one of the two vertices of the pair, no two
    vertices at consecutive positions of the list it returns are within
    the threshold of each other.  Nothing is said of the last vertex
    against the first. *)
Theorem merge_close_points_leaves_points_apart
    {V : Type} `{EqDecision V}
    (distance : V → V → Q) (midpoint_along_path : list V → V → V → V)
    (threshold : Q) (vs : list V) :
  (∃ r,
     (∀ fuel, (2 * length vs ≤ fuel)%nat →
        merge_close_points distance midpoint_along_path fuel vs threshold
        = Some (Ok r)) ∧
     (midpoint_within_pair midpoint_along_path → NoDup vs →
        apart distance threshold r)) ∧
  (∀ (i : nat) vi vj,
     vs !! i = Some vi → vs !! next_index vs i = Some vj →
     merge_step distance midpoint_along_path threshold vs (Z.of_nat i) =
       Ok (if Qle_bool (distance vi vj) threshold
           then (delete (next_index vs i)
                   (<[i := merged_vertex midpoint_along_path vs vi vj]> vs),
                 Z.of_nat i)
           else (vs, Z.of_nat i + 1))).
Proof.
  split; [|apply merge_step_spec].
  destruct (merge_close_points_total distance midpoint_along_path threshold vs)
    as [r Hr].
  exists r. split; [done|]. intros Hmid Hnd.
  apply (merge_loop_apart distance midpoint_along_path threshold
           (2 * length vs) vs 0 r); [done|done|lia| |].
  - intros k a b Hk. lia.
  - rewrite <- merge_loop_first. by apply Hr.
Qed.

Lemma merge_close_points_leaves_points_apart_witness :
  (∀ fuel, (12 ≤ fuel)%nat →
     merge_close_points distance midpoint_along_path fuel
       [(0, 0); (1, 0); (2, 0); (3, 0); (4, 0); (8, 0)] MERGE_IF_CLOSER_THAN_PX
     = Some (Ok [(0, 0); (2, 0); (4, 0); (8, 0)])) ∧
  apart distance MERGE_IF_CLOSER_THAN_PX [(0, 0); (2, 0); (4, 0); (8, 0)].
Proof.
  destruct (merge_close_points_leaves_points_apart distance midpoint_along_path
              MERGE_IF_CLOSER_THAN_PX
              [(0, 0); (1, 0); (2, 0); (3, 0); (4, 0); (8, 0)])
    as [(r & Hrun & Hap) _].
  assert (r = [(0, 0); (2, 0); (4, 0); (8, 0)]) as ->.
  { specialize (Hrun 12%nat (le_n _)). vm_compute in Hrun. congruence. }
  split; [exact Hrun|].
  apply Hap; [apply midpoint_along_path_within_pair|].
  apply (bool_decide_unpack (NoDup [(0, 0); (1, 0); (2, 0); (3, 0); (4, 0); (8, 0)])).
  vm_compute. exact I.
Defined.

(** C9, as stated, fails in three ways.  The loop also pairs the last
    vertex with the first and ends right after it has merged that pair:
    here it leaves [(0, 1)] last and [(0, 2)] first, one pixel apart.
    When the midpoint along the path lies between the two vertices of a
    pair, the vertex it replaces has been compared with the one before it
    already: [(2, 0)] and [(1, 0)] become [(3/2, 0)], which is left 1.5
    from [(0, 0)].  And on a path that visits a vertex twice the midpoint
    is taken on the way from the first visit: merging [(0, 0)] and
    [(0, 1)] puts a second [(2, 2)] next to the first. *)
Lemma merge_close_points_leaves_close_pairs :
  (merge_close_points distance midpoint_along_path 8
     [(0, 0); (0, 2); (10, 10); (0, 1)] MERGE_IF_CLOSER_THAN_PX
   = Some (Ok [(0, 2); (10, 10); (0, 1)]) ∧
   close distance MERGE_IF_CLOSER_THAN_PX (0, 1) (0, 2) ∧
   ¬ apart_cyclic distance MERGE_IF_CLOSER_THAN_PX [(0, 2); (10, 10); (0, 1)]) ∧
  (NoDup [(0, 0); (2, 0); (1, 0); (10, 0)]%Q ∧
   point_along_path [(0, 0); (2, 0); (1, 0); (10, 0)]%Q (2, 0)%Q (1, 0)%Q = (3 # 2, 0)%Q ∧
   merge_close_points fdistance point_along_path 8
     [(0, 0); (2, 0); (1, 0); (10, 0)]%Q MERGE_IF_CLOSER_THAN_PX
   = Some (Ok [(0, 0); (3 # 2, 0); (10, 0)]%Q) ∧
   ¬ apart fdistance MERGE_IF_CLOSER_THAN_PX [(0, 0); (3 # 2, 0); (10, 0)]%Q) ∧
  (midpoint_within_pair midpoint_along_path ∧
   merge_close_points distance midpoint_along_path 10
     [(0, 0); (0, 2); (2, 2); (0, 0); (0, 1)] MERGE_IF_CLOSER_THAN_PX
   = Some (Ok [(0, 0); (0, 2); (2, 2); (2, 2)]) ∧
   ¬ apart distance MERGE_IF_CLOSER_THAN_PX [(0, 0); (0, 2); (2, 2); (2, 2)]).
Proof.
  split; [|split].
  - assert (close distance MERGE_IF_CLOSER_THAN_PX (0, 1) (0, 2)) as Hclose.
    { unfold close. apply Qle_bool_iff. reflexivity. }
    split; [reflexivity|]. split; [done|].
    intros [_ Hwrap]. by apply (Hwrap (0, 1) (0, 2)).
  - split; [|split; [reflexivity|split; [vm_compute; reflexivity|]]].
    + apply (bool_decide_unpack (NoDup [(0, 0); (2, 0); (1, 0); (10, 0)]%Q)).
      vm_compute. exact I.
    + intros Hap. apply (Hap 0%nat (0, 0)%Q (3 # 2, 0)%Q); [done|done|].
      unfold close. apply Qle_bool_iff. reflexivity.
  - split; [apply midpoint_along_path_within_pair|].
    split; [vm_compute; reflexivity|].
    intros Hap. apply (Hap 2%nat (2, 2) (2, 2)); [done|done|].
    unfold close. apply Qle_bool_iff. reflexivity.
Qed.

(** C10: [merge_close_points] pairs the last vertex with the first one.
    On a list whose consecutive vertices are all farther apart than the
    threshold while its last vertex [z] is within the threshold of its first
    vertex [a], it removes [a] from the front and puts in place of [z] the
    midpoint along the path of [z] and [a] (keeping [z] when that midpoint
    is [a]). *)
Theorem merge_close_points_wraps_around
    {V : Type} `{EqDecision V}
    (distance : V → V → Q) (midpoint_along_path : list V → V → V → V)
    (threshold : Q) (fuel : nat) (a z : V) (l : list V) :
  apart distance threshold (a :: l ++ [z]) →
  close distance threshold z a →
  (length (a :: l ++ [z]) ≤ fuel)%nat →
  merge_close_points distance midpoint_along_path fuel (a :: l ++ [z]) threshold
  = Some (Ok (l ++ [merged_vertex midpoint_along_path (a :: l ++ [z]) z a])).
Proof. apply merge_wraps. Qed.

Lemma merge_close_points_wraps_around_witness :
  close distance MERGE_IF_CLOSER_THAN_PX (1, 1) (0, 0) ∧
  merge_close_points distance midpoint_along_path 3
    [(0, 0); (5, 0); (1, 1)] MERGE_IF_CLOSER_THAN_PX
  = Some (Ok [(5, 0); (1, 1)]).
Proof.
  assert (close distance MERGE_IF_CLOSER_THAN_PX (1, 1) (0, 0)) as Hclose.
  { unfold close. apply Qle_bool_iff. reflexivity. }
  split; [exact Hclose|].
  refine (eq_trans
            (merge_close_points_wraps_around distance midpoint_along_path
               MERGE_IF_CLOSER_THAN_PX 3 (0, 0) (1, 1) [(5, 0)] _ _ _) _).
  - apply apartb_apart. reflexivity.
  - exact Hclose.
  - simpl. lia.
  - reflexivity.
Defined.

(** ** Sides: extraction and validation *)

Lemma get_last {A} (l : list A) (a : A) :
  Py.get l (-1) = Ok a → list.last l = Some a.
Proof.
  unfold Py.get, Py.norm_index, Py.len.
  rewrite decide_False by lia.
  destruct (decide (- Z.of_nat (length l) ≤ -1 < 0)) as [Hin|]; [|done].
  replace (Z.to_nat (Z.of_nat (length l) + -1)) with (pred (length l)) by lia.
  rewrite last_lookup. by destruct (l !! pred (length l)); intros [= ->].
Qed.

Lemma get_head {A} (l : list A) (a : A) :
  Py.get l 0 = Ok a → head l = Some a.
Proof.
  intros Hg. apply get_ok_nonneg in Hg; [|done]. by rewrite head_lookup.
Qed.

Lemma Qgt_bool_iff (a b : Q) : Qgt_bool a b = true ↔ (b < a)%Q.
Proof.
  unfold Qgt_bool. rewrite negb_true_iff, <- not_true_iff_false, Qle_bool_iff.
  split; [apply Qnot_le_lt|apply Qlt_not_le].
Qed.

Lemma Qgt_bool_false_iff (a b : Q) : Qgt_bool a b = false ↔ (a <= b)%Q.
Proof.
  unfold Qgt_bool. rewrite negb_false_iff. apply Qle_bool_iff.
Qed.

Section SidesFacts.

Context {V C Seg : Type} `{EqDecision V}.
Variable slice : list V → Z → Z → list V.
Variable ramer_douglas_peucker : list V → Q → list V.
Variable distance : V → V → Q.
Variable midpoint_along_path : list V → V → V → V.
Variable polyline_length : list V → Q.
Variable distance_between_segments : Seg → Seg → Q.
Variable angle : sides.Side V C → Q.
Variable length : sides.Side V C → Q.
Variable segment : sides.Side V C → Seg.

#[local] Abbreviation Side := (sides.Side V C).
#[local] Abbreviation finish := (finish_side (C := C) distance polyline_length).
#[local] Abbreviation side_of :=
  (extract_side (C := C) slice ramer_douglas_peucker distance midpoint_along_path
     polyline_length).
#[local] Abbreviation sides_of :=
  (extract_sides (C := C) slice ramer_douglas_peucker distance midpoint_along_path
     polyline_length).
#[local] Abbreviation valid :=
  (validate distance_between_segments angle length segment).
#[local] Abbreviation extract :=
  (extract_four_sides slice ramer_douglas_peucker distance midpoint_along_path
     polyline_length distance_between_segments angle length segment).

(** The endpoint fix-up leaves the two corners at the ends. *)
Lemma finish_side_ends (p : piece V C) (i j : Z) (vs : list V) (s : Side) :
  finish p i j vs = Ok s →
  ∃ ci cj, Py.get (corners p) i = Ok ci ∧ Py.get (corners p) j = Ok cj ∧
           head (sides.vertices s) = Some ci ∧
           list.last (sides.vertices s) = Some cj.
Proof.
  unfold finish_side. intros Hrun.
  apply bind_ok in Hrun as (v0 & Hv0 & Hrun).
  apply bind_ok in Hrun as (ci & Hci & Hrun).
  apply bind_ok in Hrun as (vl & Hvl & Hrun).
  apply bind_ok in Hrun as (cj & Hcj & Hrun).
  apply bind_ok in Hrun as (v0' & Hv0' & Hrun).
  apply bind_ok in Hrun as (vl' & Hvl' & Hrun).
  apply bind_ok in Hrun as (ratio & Hratio & Hrun).
  injection Hrun as <-. simpl.
  exists ci, cj. split; [done|]. split; [done|].
  apply get_head in Hv0. apply get_last in Hvl.
  set (vs1 := if decide (v0 ≠ ci) then ci :: vs else vs) in *.
  assert (head vs1 = Some ci) as Hhd.
  { unfold vs1. destruct (decide (v0 ≠ ci)) as [|Heq]; [done|].
    apply dec_stable in Heq. by rewrite <- Heq. }
  split.
  - destruct (decide (vl ≠ cj)); [|done].
    destruct vs1; [done|]. done.
  - destruct (decide (vl ≠ cj)) as [|Heq].
    + by rewrite last_snoc.
    + apply dec_stable in Heq. by rewrite <- Heq.
Qed.

Lemma and_then_ok {A B} (o : option (result A)) (k : A → option (result B)) (b : B) :
  and_then o k = Some (Ok b) ↔ ∃ a, o = Some (Ok a) ∧ k a = Some (Ok b).
Proof.
  destruct o as [[a|e]|]; simpl; split; try done.
  - intros Hk. by exists a.
  - by intros (a' & [= <-] & Hk).
  - by intros (a' & [=] & _).
  - by intros (a' & [=] & _).
Qed.

Lemma extract_side_ends (p : piece V C) (acc : list Side) (i : Z) (ss : list Side) :
  side_of p acc i = Some (Ok ss) →
  ∃ s ci cj, ss = acc ++ [s] ∧
             Py.get (corners p) i = Ok ci ∧
             Py.get (corners p) ((i + 1) `mod` 4) = Ok cj ∧
             head (sides.vertices s) = Some ci ∧
             list.last (sides.vertices s) = Some cj.
Proof.
  unfold extract_side. intros Hrun.
  apply and_then_ok in Hrun as (c_i & _ & Hrun).
  apply and_then_ok in Hrun as (c_j & _ & Hrun).
  apply and_then_ok in Hrun as (vs & _ & Hrun).
  apply and_then_ok in Hrun as (s & Hs & Hrun).
  injection Hs as Hs. injection Hrun as <-.
  destruct (finish_side_ends _ _ _ _ _ Hs) as (ci & cj & ? & ? & ? & ?).
  by exists s, ci, cj.
Qed.

Lemma extract_sides_four (p : piece V C) (ss : list Side) :
  sides_of p [] (Py.range 0 4) = Some (Ok ss) →
  List.length ss = 4%nat ∧ ∀ i, (i < 4)%nat → side_between p ss i.
Proof.
  change (Py.range 0 4) with [0; 1; 2; 3]. simpl. intros Hrun.
  apply and_then_ok in Hrun as (ss0 & H0 & Hrun).
  apply and_then_ok in Hrun as (ss1 & H1 & Hrun).
  apply and_then_ok in Hrun as (ss2 & H2 & Hrun).
  apply and_then_ok in Hrun as (ss3 & H3 & Hrun).
  injection Hrun as <-.
  apply extract_side_ends in H0 as (s0 & a0 & b0 & -> & Ha0 & Hb0 & Hh0 & Hl0).
  apply extract_side_ends in H1 as (s1 & a1 & b1 & -> & Ha1 & Hb1 & Hh1 & Hl1).
  apply extract_side_ends in H2 as (s2 & a2 & b2 & -> & Ha2 & Hb2 & Hh2 & Hl2).
  apply extract_side_ends in H3 as (s3 & a3 & b3 & -> & Ha3 & Hb3 & Hh3 & Hl3).
  apply get_ok_nonneg in Ha0, Hb0, Ha1, Hb1, Ha2, Hb2, Ha3, Hb3; try done.
  split; [done|]. intros i Hi. unfold side_between.
  destruct i as [|[|[|[|i]]]]; [| | | |lia]; simpl; eauto 10.
Qed.


(** *** The validations *)

Lemma get_four {A} (a0 a1 a2 a3 : A) :
  Py.get [a0; a1; a2; a3] 0 = Ok a0 ∧ Py.get [a0; a1; a2; a3] 1 = Ok a1 ∧
  Py.get [a0; a1; a2; a3] 2 = Ok a2 ∧ Py.get [a0; a1; a2; a3] 3 = Ok a3.
Proof. done. Qed.

(** The two parallelism checks, by cases on the two angle differences. *)
Lemma check_parallel_spec (s0 s1 s2 s3 : Side) :
  check_parallel angle [s0; s1; s2; s3] =
    if Qgt_bool (Qabs (angle s0 - angle s2)) SIDE_PARALLEL_THRESHOLD_DEG
    then Raise NotParallel02
    else if Qgt_bool (Qabs (angle s1 - angle s3)) SIDE_PARALLEL_THRESHOLD_DEG
         then Raise NotParallel13
         else Ok ().
Proof. done. Qed.

Lemma validate_four (s0 s1 s2 s3 : Side) :
  valid [s0; s1; s2; s3] =
    check_parallel angle [s0; s1; s2; s3] ≫= λ _,
    check_right_angle angle [s0; s1; s2; s3] ≫= λ _,
    check_lengths length [s0; s1; s2; s3] ≫= λ _,
    check_square distance_between_segments segment [s0; s1; s2; s3] ≫= λ _,
    check_edges [s0; s1; s2; s3].
Proof. done. Qed.

(** The square check compares a distance with itself: it passes whenever
    that distance is not negative. *)
Lemma check_square_passes (s0 s1 s2 s3 : Side) :
  (0 <= distance_between_segments (segment s0) (segment s2))%Q →
  check_square distance_between_segments segment [s0; s1; s2; s3] = Ok ().
Proof.
  intros Hd. unfold check_square.
  destruct (get_four s0 s1 s2 s3) as (-> & _ & -> & _). rewrite !ret_bind.
  set (d := distance_between_segments (segment s0) (segment s2)) in *.
  assert (Qgt_bool d (1.35 * d) = false) as ->; [|done].
  apply Qgt_bool_false_iff. lra.
Qed.

End SidesFacts.

Section SidesClaims.

Context {V C Seg : Type} `{EqDecision V}.
Variable slice : list V → Z → Z → list V.
Variable ramer_douglas_peucker : list V → Q → list V.
Variable distance : V → V → Q.
Variable midpoint_along_path : list V → V → V → V.
Variable polyline_length : list V → Q.
Variable distance_between_segments : Seg → Seg → Q.
Variable angle : sides.Side V C → Q.
Variable length : sides.Side V C → Q.
Variable segment : sides.Side V C → Seg.

(** What the parallelism checks do with the [angle] attribute of the four
    extracted sides: its differences are compared, as they are, with
    [SIDE_PARALLEL_THRESHOLD_DEG]. *)
Lemma extract_four_sides_parallel_check
    (p : piece V C) (s0 s1 s2 s3 : sides.Side V C) :
  extract_sides slice ramer_douglas_peucker distance midpoint_along_path
    polyline_length p [] (Py.range 0 4) = Some (Ok [s0; s1; s2; s3]) →
  ((32 < Qabs (angle s0 - angle s2))%Q →
     extract_four_sides slice ramer_douglas_peucker distance midpoint_along_path
       polyline_length distance_between_segments angle length segment p
     = Some (Raise NotParallel02)) ∧
  ((Qabs (angle s0 - angle s2) <= 32)%Q → (32 < Qabs (angle s1 - angle s3))%Q →
     extract_four_sides slice ramer_douglas_peucker distance midpoint_along_path
       polyline_length distance_between_segments angle length segment p
     = Some (Raise NotParallel13)) ∧
  ((Qabs (angle s0 - angle s2) <= 32)%Q → (Qabs (angle s1 - angle s3) <= 32)%Q →
     check_parallel angle [s0; s1; s2; s3] = Ok ()).
Proof.
  intros Hss. unfold extract_four_sides. rewrite Hss. simpl and_then.
  rewrite validate_four, check_parallel_spec.
  change SIDE_PARALLEL_THRESHOLD_DEG with 32%Q.
  split; [|split].
  - intros H02. apply Qgt_bool_iff in H02. by rewrite H02.
  - intros H02 H13. apply Qgt_bool_false_iff in H02. apply Qgt_bool_iff in H13.
    by rewrite H02, H13.
  - intros H02 H13. apply Qgt_bool_false_iff in H02, H13.
    by rewrite H02, H13.
Qed.

(** On angles in radians the two checks cannot fire: two angles of
    [[0, 2 pi)] differ by less than 32. *)
Lemma check_parallel_passes_on_radians (s0 s1 s2 s3 : sides.Side V C) :
  in_radians (angle s0) → in_radians (angle s1) →
  in_radians (angle s2) → in_radians (angle s3) →
  check_parallel angle [s0; s1; s2; s3] = Ok ().
Proof.
  unfold in_radians. intros H0 H1 H2 H3. rewrite check_parallel_spec.
  change SIDE_PARALLEL_THRESHOLD_DEG with 32%Q.
  assert (2 * math_pi < 32)%Q as Hpi by reflexivity.
  assert (∀ a b, (0 <= a < 2 * math_pi)%Q → (0 <= b < 2 * math_pi)%Q →
                 Qgt_bool (Qabs (a - b)) 32 = false) as Hlt.
  { intros a b Ha Hb. apply Qgt_bool_false_iff, Qabs_Qle_condition. lra. }
  by rewrite !Hlt.
Qed.

(** C6: when [extract_four_sides] returns, the piece holds four sides, and
    side [i] starts at corner [i] and ends at corner [(i + 1) mod 4]. *)
Theorem extract_four_sides_endpoints (p : piece V C) (ss : list (sides.Side V C)) :
  extract_four_sides slice ramer_douglas_peucker distance midpoint_along_path
    polyline_length distance_between_segments angle length segment p
  = Some (Ok ss) →
  List.length ss = 4%nat ∧ ∀ i, (i < 4)%nat → side_between p ss i.
Proof.
  unfold extract_four_sides. intros Hrun.
  apply and_then_ok in Hrun as (ss0 & Hss & Hrun).
  injection Hrun as Hrun. apply bind_ok in Hrun as (_ & _ & [= <-]).
  by eapply extract_sides_four.
Qed.

(** [extract_four_sides] returns or raises: the merging of each side has
    fuel enough. *)
Lemma extract_four_sides_total (p : piece V C) :
  ∃ r, extract_four_sides slice ramer_douglas_peucker distance midpoint_along_path
         polyline_length distance_between_segments angle length segment p = Some r.
Proof.
  assert (∀ acc i, ∃ r,
            extract_side slice ramer_douglas_peucker distance midpoint_along_path
              polyline_length p acc i = Some r) as Hside.
  { intros acc i. unfold extract_side.
    destruct (Py.get (corner_indices p) i) as [c_i|e]; simpl; [|eauto].
    destruct (Py.get (corner_indices p) ((i + 1) `mod` 4)) as [c_j|e]; simpl; [|eauto].
    destruct (merge_close_points_total distance midpoint_along_path
                MERGE_IF_CLOSER_THAN_PX
                (ramer_douglas_peucker (slice (boundary p) c_i c_j) 0.25)) as [vs Hvs].
    rewrite Hvs by done. simpl.
    destruct (finish_side distance polyline_length p i ((i + 1) `mod` 4) vs);
      simpl; eauto. }
  assert (∀ idxs acc, ∃ r,
            extract_sides slice ramer_douglas_peucker distance midpoint_along_path
              polyline_length p acc idxs = Some r) as Hsides.
  { induction idxs as [|i idxs IH]; intros acc; simpl; [eauto|].
    destruct (Hside acc i) as [[acc'|e] ->]; simpl; eauto. }
  unfold extract_four_sides.
  destruct (Hsides (Py.range 0 4) []) as [[ss|e] ->]; simpl; eauto.
Qed.

End SidesClaims.

Lemma extract_four_sides_endpoints_witness :
  extract_px tall_piece = Some (Ok tall_sides) ∧
  List.length tall_sides = 4%nat ∧
  ∀ i, (i < 4)%nat → side_between tall_piece tall_sides i.
Proof.
  assert (extract_px tall_piece = Some (Ok tall_sides)) as Hrun
    by (vm_compute; reflexivity).
  split; [exact Hrun|].
  exact (extract_four_sides_endpoints util.slice util.ramer_douglas_peucker
           distance midpoint_along_path polyline_length
           util.distance_between_segments side_angle side_length side_segment
           tall_piece tall_sides Hrun).
Defined.

(** C1 on the code: [tall_piece] is 4 wide and 8 high.  Its sides 0 and 2
    are 8 apart and its sides 1 and 3 are 4 apart, more than a 1.35 ratio,
    and [extract_four_sides] accepts it: the check that should compare the
    two separations compares the first one with itself. *)
Theorem tall_piece_passes_the_square_check :
  ∃ s0 s1 s2 s3,
    extract_px tall_piece = Some (Ok [s0; s1; s2; s3]) ∧
    (util.distance_between_segments (side_segment s0) (side_segment s2) == 8)%Q ∧
    (util.distance_between_segments (side_segment s1) (side_segment s3) == 4)%Q ∧
    (1.35 * 4 < 8)%Q.
Proof.
  do 4 eexists. split; [vm_compute; reflexivity|].
  split; [reflexivity|]. split; [reflexivity|]. reflexivity.
Qed.

(** C2 on the code: side 0 of [slanted_piece] runs along the x axis and
    its side 2 along a diagonal, 135 degrees from it (45 degrees off
    parallel).  [extract_four_sides] accepts the piece: the difference of
    the two angles, 3 pi / 4 in radians, is compared with 32. *)
Theorem slanted_piece_passes_the_parallel_check :
  ∃ s0 s1 s2 s3,
    extract_px slanted_piece = Some (Ok [s0; s1; s2; s3]) ∧
    (side_angle s0 == 0)%Q ∧
    (side_angle s2 == 3 * math_pi / 4)%Q ∧
    (deg 32 < Qabs (side_angle s0 - side_angle s2))%Q ∧
    check_parallel side_angle [s0; s1; s2; s3] = Ok ().
Proof.
  do 4 eexists. split; [vm_compute; reflexivity|].
  split; [reflexivity|]. split; [reflexivity|]. split; reflexivity.
Qed.

(** The two corners of a short side can be merged away and put back: the
    loop of [merge_close_points] pairs the last vertex with the first,
    drops the first corner, and the endpoint fix-up inserts it again. *)
Example merged_corner_is_put_back :
  merge_close_points distance midpoint_along_path 8
    (util.ramer_douglas_peucker (util.slice (boundary spike) 0 9) 0.25)
    MERGE_IF_CLOSER_THAN_PX
  = Some (Ok [(5, 0); (1, 1)]) ∧
  extract_side util.slice util.ramer_douglas_peucker distance midpoint_along_path
    polyline_length spike [] 0
  = Some (Ok [sides.mkSide [(0, 0); (5, 0); (1, 1)] (2, 1)%Q false]).
Proof. split; vm_compute; reflexivity. Qed.

(** ** Corner candidates from spoke angles *)

Lemma Qlt_bool_iff (a b : Q) : Qlt_bool a b = true ↔ (a < b)%Q.
Proof.
  unfold Qlt_bool. rewrite negb_true_iff, <- not_true_iff_false, Qle_bool_iff.
  split; [apply Qnot_le_lt|apply Qlt_not_le].
Qed.

Section SpokesFacts.

Variable cos sin : Q → Q.
Variable slice : list point → Z → Z → list point.
Variable colinearity : point → list point → Q * Q.
Variable counterclockwise_angle_between_vectors : fpoint → fpoint → fpoint → Q.
Variable angle_between : fpoint → fpoint → Q.
Variable midpoint : fpoint → fpoint → fpoint.
Variable compare_angles : Q → Q → Q.
Variable vertices : list point.
Variable centroid : fpoint.

#[local] Abbreviation candidate_of :=
  (spoke_candidate cos sin slice colinearity counterclockwise_angle_between_vectors
     angle_between midpoint compare_angles vertices centroid).
#[local] Abbreviation corner :=
  (is_spoke_corner cos sin slice colinearity counterclockwise_angle_between_vectors
     angle_between midpoint compare_angles vertices centroid).
#[local] Abbreviation candidate_at :=
  (spoke_candidate_at cos sin slice colinearity counterclockwise_angle_between_vectors
     angle_between midpoint compare_angles vertices centroid).
#[local] Abbreviation before :=
  (spoke_candidates_before cos sin slice colinearity
     counterclockwise_angle_between_vectors angle_between midpoint compare_angles
     vertices centroid).

Lemma roughly_90_iff (a : Q) :
  Qlt_bool (Qabs (math_pi / 2 - a)) (SIDES_ORTHOGONAL_THRESHOLD_DEG * math_pi / 180) = true
  ↔ (Qabs (a - deg 90) < deg 50)%Q.
Proof.
  rewrite Qlt_bool_iff, !Qabs_Qlt_condition.
  unfold deg, SIDES_ORTHOGONAL_THRESHOLD_DEG. generalize math_pi. intros pi.
  assert (pi / 2 == 90 * pi / 180)%Q by field.
  split; intros [? ?]; split; lra.
Qed.

(** The loop body at vertex [i]: a candidate exactly when the three
    conditions hold. *)
Lemma spoke_candidate_spec (i : nat) (p : point) :
  vertices !! i = Some p →
  (corner p (Z.of_nat i) ∧
   candidate_of (Z.of_nat i) = Ok (Some (candidate_at p (Z.of_nat i)))) ∨
  (¬ corner p (Z.of_nat i) ∧ candidate_of (Z.of_nat i) = Ok None).
Proof.
  intros Hp. unfold spoke_candidate.
  rewrite (get_lookup vertices (Z.of_nat i) p) by (lia || (rewrite Nat2Z.id; done)).
  rewrite ret_bind.
  unfold is_spoke_corner, spoke_candidate_at, mean_dispersion, interior_angle,
    center_offset, project, fit_before, fit_after.
  replace (Z.of_nat i - 12 - 1) with (Z.of_nat i - 13) by lia.
  replace (Z.of_nat i - 1 - 1) with (Z.of_nat i - 2) by lia.
  replace (Z.of_nat i + 1 + 1) with (Z.of_nat i + 2) by lia.
  replace (Z.of_nat i + 12 + 1) with (Z.of_nat i + 13) by lia.
  destruct (colinearity p (slice vertices (Z.of_nat i - 13) (Z.of_nat i - 2)))
    as [a_ih stdev_h].
  destruct (colinearity p (slice vertices (Z.of_nat i + 2) (Z.of_nat i + 13)))
    as [a_ij stdev_j].
  simpl fst. simpl snd.
  destruct (Qgt_bool ((stdev_h + stdev_j) / 2) 0.2) eqn:Hstdev.
  { right. split; [|done]. intros [Hle _].
    apply Qgt_bool_iff in Hstdev. lra. }
  apply Qgt_bool_false_iff in Hstdev.
  match goal with
  | |- context [Qlt_bool (Qabs (math_pi / 2 - ?a)) _] => set (angle_hij := a)
  end.
  destruct (Qlt_bool (Qabs (math_pi / 2 - angle_hij))
              (SIDES_ORTHOGONAL_THRESHOLD_DEG * math_pi / 180)) eqn:H90.
  2:{ right. split; [|done]. intros (_ & H & _).
      apply roughly_90_iff in H. congruence. }
  apply roughly_90_iff in H90. simpl negb. cbv iota.
  match goal with
  | |- context [Qlt_bool ?o (angle_hij / 2)] => set (offset := o)
  end.
  destruct (Qlt_bool offset (angle_hij / 2)) eqn:Htoward.
  - left. apply Qlt_bool_iff in Htoward. done.
  - right. split; [|done]. intros (_ & _ & H).
    apply Qlt_bool_iff in H. congruence.
Qed.

Lemma find_corner_candidates_spec :
  ∃ cs,
    find_corner_candidates_by_spoke_angles cos sin slice colinearity
      counterclockwise_angle_between_vectors angle_between midpoint compare_angles
      vertices centroid = Ok cs ∧
    before (Py.len vertices) cs ∧
    ∀ c, c ∈ cs → cand_i c < Py.len vertices.
Proof.
  unfold find_corner_candidates_by_spoke_angles.
  destruct (for_each_range
              (fun n cs => before n cs ∧ ∀ c, c ∈ cs → cand_i c < n)
              (fun candidates i =>
                 c ← candidate_of i ;
                 Ok (match c with Some c => candidates ++ [c] | None => candidates end))
              0 (Py.len vertices) [])
    as (cs & Hrun & Hcs); [unfold Py.len; lia| | |by exists cs].
  - split; [split|].
    + intros c. split; [by intros ?%elem_of_nil|]. intros (i & p & Hi & _). lia.
    + constructor.
    + by intros c ?%elem_of_nil.
  - intros n cs [Hn0 Hn] [[Hiff Hnd] Hlt].
    destruct (lookup_lt_is_Some_2 vertices (Z.to_nat n)) as [p Hp];
      [unfold Py.len in Hn; lia|].
    assert (n = Z.of_nat (Z.to_nat n)) as Hnat by lia. rewrite Hnat.
    set (k := Z.to_nat n) in *. clearbody k. subst n.
    destruct (spoke_candidate_spec k p Hp) as [[Hc ->]|[Hc ->]]; rewrite ret_bind;
      eexists; (split; [done|]); (split; [split|]).
    + intros c. rewrite elem_of_app, list_elem_of_singleton, Hiff. split.
      * intros [(i & q & Hi & Hq & Hcq & ->) | -> ].
        -- exists i, q. split; [lia|done].
        -- exists k, p. split; [lia|done].
      * intros (i & q & Hi & Hq & Hcq & ->).
        destruct (decide (i = k)) as [->|Hne].
        -- right. by assert (q = p) as -> by congruence.
        -- left. exists i, q. split; [lia|done].
    + rewrite fmap_app. apply NoDup_app. split; [done|]. split; [|apply NoDup_singleton].
      intros x Hx. apply list_elem_of_fmap in Hx as (c & -> & Hc').
      apply Hlt in Hc'. simpl. rewrite list_elem_of_singleton. lia.
    + intros c. rewrite elem_of_app, list_elem_of_singleton.
      intros [Hc' | -> ]; [apply Hlt in Hc'; lia|simpl; lia].
    + intros c. rewrite Hiff. split.
      * intros (i & q & Hi & Hrest). exists i, q. split; [lia|done].
      * intros (i & q & Hi & Hq & Hcq & ->).
        destruct (decide (i = k)) as [->|Hne].
        -- assert (q = p) as -> by congruence. done.
        -- exists i, q. split; [lia|done].
    + done.
    + intros c Hc'. apply Hlt in Hc'. lia.
Qed.

(** C7: [find_corner_candidates_by_spoke_angles] returns, and its
    candidates are exactly the ones of the boundary vertices that meet the
    three conditions: the mean of the two dispersions of the tangent fits
    is at most 0.2; the interior angle at the vertex, between the points 10
    units out along the two tangents, is less than 50 degrees away from 90
    degrees; and the offset between the direction the corner opens to and
    the direction of the centroid is less than half the interior angle.
    Each such vertex gets one candidate, which carries the vertex, its
    index, the interior angle and the offset. *)
Theorem find_corner_candidates_by_spoke_angles_iff :
  ∃ cs,
    find_corner_candidates_by_spoke_angles cos sin slice colinearity
      counterclockwise_angle_between_vectors angle_between midpoint compare_angles
      vertices centroid = Ok cs ∧
    (∀ c, c ∈ cs ↔
          ∃ (i : nat) p,
            vertices !! i = Some p ∧
            is_spoke_corner cos sin slice colinearity
              counterclockwise_angle_between_vectors angle_between midpoint
              compare_angles vertices centroid p (Z.of_nat i) ∧
            c = spoke_candidate_at cos sin slice colinearity
                  counterclockwise_angle_between_vectors angle_between midpoint
                  compare_angles vertices centroid p (Z.of_nat i)) ∧
    NoDup (cand_i <$> cs).
Proof.
  destruct find_corner_candidates_spec as (cs & Hrun & [Hiff Hnd] & _).
  exists cs. split; [done|]. split; [|done].
  intros c. rewrite Hiff. split.
  - intros (i & p & _ & Hrest). by exists i, p.
  - intros (i & p & Hp & Hrest). exists i, p. split; [|done].
    apply lookup_lt_Some in Hp. unfold Py.len. lia.
Qed.

End SpokesFacts.

(** ** Comparing two pieces *)

Lemma keep_min_fold_none (cs : list (option Q)) (m0 : option Q) :
  fold_left keep_min cs m0 = None ↔ m0 = None ∧ ∀ c, c ∈ cs → c = None.
Proof.
  revert m0. induction cs as [|c cs IH]; intros m0; simpl.
  - split; [intros ->; split; [done|by intros c ?%elem_of_nil]|by intros [-> _]].
  - rewrite IH. split.
    + intros [Hk Hall]. destruct m0 as [m|], c as [x|]; simpl in Hk;
        try done; [by destruct (Qlt_bool x m)|].
      split; [done|]. intros c [-> | Hc]%elem_of_cons; [done|by apply Hall].
    + intros [-> Hall]. split.
      * simpl. apply Hall. by left.
      * intros c' Hc'. apply Hall. by right.
Qed.

Lemma keep_min_fold_some (cs : list (option Q)) (m0 : option Q) (m : Q) :
  fold_left keep_min cs m0 = Some m →
  (m0 = Some m ∨ Some m ∈ cs) ∧
  (∀ x, m0 = Some x → (m <= x)%Q) ∧
  (∀ x, Some x ∈ cs → (m <= x)%Q).
Proof.
  revert m0. induction cs as [|c cs IH]; intros m0; simpl.
  - intros ->. split; [by left|]. split.
    + intros x [= <-]. apply Qle_refl.
    + by intros x ?%elem_of_nil.
  - intros Hfold. destruct (IH _ Hfold) as (Hin & Hm0 & Hcs).
    assert (∀ x, c = Some x → (m <= x)%Q) as Hc.
    { intros x ->. destruct m0 as [y|]; simpl in *.
      - destruct (Qlt_bool x y) eqn:Hlt; [by apply Hm0|].
        apply not_true_iff_false in Hlt. rewrite Qlt_bool_iff in Hlt.
        apply Qnot_lt_le in Hlt. specialize (Hm0 y eq_refl). lra.
      - by apply Hm0. }
    split; [|split].
    + destruct Hin as [Hk|Hin]; [|right; apply elem_of_cons; by right].
      destruct m0 as [y|], c as [x|]; simpl in Hk; try done.
      * destruct (Qlt_bool x y); [right; apply elem_of_cons; by left|by left].
      * by left.
      * right. apply elem_of_cons. by left.
    + intros y ->. destruct c as [x|]; simpl in *; [|by apply Hm0].
      destruct (Qlt_bool x y) eqn:Hlt; [|by apply Hm0].
      apply Qlt_bool_iff in Hlt. specialize (Hm0 x eq_refl). lra.
    + intros x [[= <-]|Hx]%elem_of_cons; [by apply Hc|by apply Hcs].
Qed.

Section CompareFacts.

Context {S : Type}.
Variable error_when_fit_with : S → S → option Q.
Variable a0 a1 a2 a3 b0 b1 b2 b3 : S.

#[local] Abbreviation ours := [a0; a1; a2; a3].
#[local] Abbreviation theirs := [b0; b1; b2; b3].

(** The inner loop computes the total of its alignment. *)
Lemma cumulative_error_total (k : Z) :
  0 ≤ k < 4 →
  ∃ c, cumulative_error error_when_fit_with ours theirs k = Ok c ∧
       same_total c (alignment_total error_when_fit_with ours theirs k).
Proof.
  intros Hk.
  assert (k = 0 ∨ k = 1 ∨ k = 2 ∨ k = 3) as [-> | [-> | [-> | ->]]] by lia;
    unfold cumulative_error, alignment_total, pair_errors;
    change (Py.range 0 4) with [0; 1; 2; 3]; simpl;
    repeat match goal with
           | |- context [error_when_fit_with ?x ?y] =>
               destruct (error_when_fit_with x y); simpl
           end;
    eexists; (split; [reflexivity|]); simpl; try done; ring.
Qed.

Lemma compare_fold (c0 c1 c2 c3 : option Q) :
  cumulative_error error_when_fit_with ours theirs 0 = Ok c0 →
  cumulative_error error_when_fit_with ours theirs 1 = Ok c1 →
  cumulative_error error_when_fit_with ours theirs 2 = Ok c2 →
  cumulative_error error_when_fit_with ours theirs 3 = Ok c3 →
  compare error_when_fit_with ours theirs = Ok (fold_left keep_min [c0; c1; c2; c3] None).
Proof.
  intros H0 H1 H2 H3. unfold compare. change (Py.range 0 4) with [0; 1; 2; 3].
  simpl for_each. by rewrite H0, ret_bind, H1, ret_bind, H2, ret_bind, H3, ret_bind.
Qed.

(** C8: for two pieces of four sides each, [compare] returns the least of
    the totals of the four rotational alignments, an alignment with a pair
    that does not fit having no total; and it returns [None] exactly when
    every alignment has such a pair. *)
Theorem compare_returns_least_total :
  ∃ r,
    compare error_when_fit_with [a0; a1; a2; a3] [b0; b1; b2; b3] = Ok r ∧
    (r = None ↔
     ∀ k, 0 ≤ k < 4 →
       alignment_total error_when_fit_with [a0; a1; a2; a3] [b0; b1; b2; b3] k = None) ∧
    (∀ m, r = Some m →
       least_total error_when_fit_with [a0; a1; a2; a3] [b0; b1; b2; b3] m).
Proof.
  destruct (cumulative_error_total 0) as (c0 & H0 & T0); [lia|].
  destruct (cumulative_error_total 1) as (c1 & H1 & T1); [lia|].
  destruct (cumulative_error_total 2) as (c2 & H2 & T2); [lia|].
  destruct (cumulative_error_total 3) as (c3 & H3 & T3); [lia|].
  exists (fold_left keep_min [c0; c1; c2; c3] None).
  split; [by apply compare_fold|].
  assert (∀ k, 0 ≤ k < 4 →
            ∃ c, c ∈ [c0; c1; c2; c3] ∧
                 same_total c (alignment_total error_when_fit_with ours theirs k))
    as Hall.
  { intros k Hk.
    assert (k = 0 ∨ k = 1 ∨ k = 2 ∨ k = 3) as [-> | [-> | [-> | ->]]] by lia;
      eexists; (split; [|done]); rewrite !elem_of_cons; auto 10. }
  assert (∀ c, c ∈ [c0; c1; c2; c3] →
            ∃ k, 0 ≤ k < 4 ∧
                 same_total c (alignment_total error_when_fit_with ours theirs k))
    as Hsome.
  { intros c Hc. rewrite !elem_of_cons, elem_of_nil in Hc.
    destruct Hc as [-> | [-> | [-> | [-> | []]]]];
      [exists 0|exists 1|exists 2|exists 3]; (split; [lia|done]). }
  split.
  - rewrite keep_min_fold_none. split.
    + intros [_ Hnone] k Hk. destruct (Hall k Hk) as (c & Hc & Hsame).
      rewrite (Hnone c Hc) in Hsame. simpl in Hsame.
      by destruct (alignment_total _ _ _ k).
    + intros Hnone. split; [done|]. intros c Hc.
      destruct (Hsome c Hc) as (k & Hk & Hsame). rewrite (Hnone k Hk) in Hsame.
      by destruct c.
  - intros m Hm. apply keep_min_fold_some in Hm as ([|Hin] & _ & Hle); [done|].
    split.
    + destruct (Hsome _ Hin) as (k & Hk & Hsame). simpl in Hsame.
      destruct (alignment_total _ _ _ k) as [t|] eqn:Ht; [|done].
      by exists k, t.
    + intros k t Hk Ht. destruct (Hall k Hk) as (c & Hc & Hsame).
      rewrite Ht in Hsame. destruct c as [x|]; [|done]. simpl in Hsame.
      rewrite <- Hsame. by apply Hle.
Qed.

End CompareFacts.

(** The example of the specification: sides of lengths 10, 20, 10, 20
    against sides of lengths 20, 10, 20, 10, the error of a pair being the
    difference of the lengths.  The best alignment is found at a shift of
    one side; a side of length 0 fits nothing. *)
Example compare_example :
  compare length_error [10; 20; 10; 20] [20; 10; 20; 10] = Ok (Some 0%Q) ∧
  cumulative_error length_error [10; 20; 10; 20] [20; 10; 20; 10] 0 = Ok (Some 40%Q) ∧
  compare length_error [10; 0; 10; 0] [20; 10; 20; 10] = Ok None.
Proof. repeat split; vm_compute; reflexivity. Qed.
